(** * Upsilon.py: the NumWorks line-JSON RPC client

    A shallow embedding of [upsilon_py/__init__.py] (class [NumWorks]) and
    of the library calls it relies on ([json.dumps], [json.loads],
    [bytes.decode], [str.strip], [StreamReader.readline], [asyncio.Queue],
    [asyncio.Event]).

    Modelling conventions.
    - A Python [str] is a list of code points, a [bytes] value a list of
      octets, both over [N].
    - A decoded JSON value is a [json] tree.  Python dictionaries keep
      insertion order, so an object is an association list; [dict_set]
      gives the update-or-append behaviour of [dict(pairs)].
    - JSON numbers are modelled by Python's [int] (unbounded, as [Z]).
      Number literals with a fraction or an exponent denote Python floats,
      which are outside this model: [loads] does not accept them.
    - A coroutine is a tree of awaited effects ([coro]); [exec] runs one
      until it returns, raises or suspends, which is how the asyncio event
      loop steps a task.  [while True] loops are iterated by [run_loop]
      under a step bound. *)

From Stdlib Require Import List NArith ZArith Bool Lia String Ascii.
From Stdlib Require Import DecimalFacts DecimalPos DecimalN DecimalZ.
Import ListNotations.
Local Open Scope N_scope.

Set Implicit Arguments.

(** ** Python strings and bytes *)

Definition str := list N.
Definition bytes := list N.

(** [py "text"] is the Python string literal with that ASCII text. *)
Definition py (s : string) : str :=
  List.map N_of_ascii (list_ascii_of_string s).

Fixpoint str_eqb (a b : str) : bool :=
  match a, b with
  | [], [] => true
  | x :: a', y :: b' => (x =? y) && str_eqb a' b'
  | _, _ => false
  end.

(** ** JSON values as produced by [json.loads] *)

Unset Elimination Schemes.
Inductive json : Type :=
| JNull
| JBool (b : bool)
| JNum (n : Z)
| JStr (s : str)
| JArr (items : list json)
| JObj (fields : list (str * json)).
Set Elimination Schemes.

(** Python truth value testing ([if x:], [not x]). *)
Definition truthy (v : json) : bool :=
  match v with
  | JNull => false
  | JBool b => b
  | JNum n => negb (n =? 0)%Z
  | JStr s => match s with [] => false | _ => true end
  | JArr l => match l with [] => false | _ => true end
  | JObj d => match d with [] => false | _ => true end
  end.

(** [d[key]] lookup on the association list of a dictionary. *)
Fixpoint dict_lookup (key : str) (d : list (str * json)) : option json :=
  match d with
  | [] => None
  | (k, v) :: d' => if str_eqb key k then Some v else dict_lookup key d'
  end.

(** [d.get(key, default)]. *)
Definition dict_get (key : str) (default : json) (d : list (str * json)) : json :=
  match dict_lookup key d with
  | Some v => v
  | None => default
  end.

(** [d[key] = v]: replace in place when the key is present, append
    otherwise. *)
Fixpoint dict_set (key : str) (v : json) (d : list (str * json))
  : list (str * json) :=
  match d with
  | [] => [(key, v)]
  | (k, w) :: d' =>
      if str_eqb key k then (k, v) :: d' else (k, w) :: dict_set key v d'
  end.

(** [dict(pairs)]. *)
Definition dict_of_pairs (pairs : list (str * json)) : list (str * json) :=
  fold_left (fun d kv => dict_set (fst kv) (snd kv) d) pairs [].

(** [isinstance(v, dict)]. *)
Definition is_dict (v : json) : bool :=
  match v with JObj _ => true | _ => false end.

(** ** UTF-8 ([bytes.decode("utf-8")], [str.encode("utf-8")]) *)

Definition is_cont (b : N) : bool := (0x80 <=? b) && (b <=? 0xBF).
Definition in_range (lo hi b : N) : bool := (lo <=? b) && (b <=? hi).

(** Strict decoding; [None] stands for [UnicodeDecodeError]. *)
Fixpoint utf8_decode (bs : bytes) : option str :=
  match bs with
  | [] => Some []
  | b0 :: t0 =>
      if b0 <? 0x80 then option_map (cons b0) (utf8_decode t0)
      else match t0 with
      | [] => None
      | b1 :: t1 =>
          if in_range 0xC2 0xDF b0 then
            if is_cont b1
            then option_map
                   (cons (N.lor (N.shiftl (N.land b0 0x1F) 6) (N.land b1 0x3F)))
                   (utf8_decode t1)
            else None
          else match t1 with
          | [] => None
          | b2 :: t2 =>
              if in_range 0xE0 0xEF b0 then
                if in_range (if b0 =? 0xE0 then 0xA0 else 0x80)
                            (if b0 =? 0xED then 0x9F else 0xBF) b1
                   && is_cont b2
                then option_map
                       (cons (N.lor (N.shiftl (N.land b0 0x0F) 12)
                               (N.lor (N.shiftl (N.land b1 0x3F) 6)
                                      (N.land b2 0x3F))))
                       (utf8_decode t2)
                else None
              else match t2 with
              | [] => None
              | b3 :: t3 =>
                  if in_range 0xF0 0xF4 b0
                     && in_range (if b0 =? 0xF0 then 0x90 else 0x80)
                                 (if b0 =? 0xF4 then 0x8F else 0xBF) b1
                     && is_cont b2 && is_cont b3
                  then option_map
                         (cons (N.lor (N.shiftl (N.land b0 0x07) 18)
                                 (N.lor (N.shiftl (N.land b1 0x3F) 12)
                                   (N.lor (N.shiftl (N.land b2 0x3F) 6)
                                          (N.land b3 0x3F)))))
                         (utf8_decode t3)
                  else None
              end
          end
      end
  end.

(** Strict encoding; [None] stands for [UnicodeEncodeError] (surrogates). *)
Fixpoint utf8_encode (s : str) : option bytes :=
  match s with
  | [] => Some []
  | c :: s' =>
      let rest := utf8_encode s' in
      if c <? 0x80 then option_map (cons c) rest
      else if c <? 0x800 then
        option_map (fun r => N.lor 0xC0 (N.shiftr c 6)
                             :: N.lor 0x80 (N.land c 0x3F) :: r) rest
      else if in_range 0xD800 0xDFFF c then None
      else if c <? 0x10000 then
        option_map (fun r => N.lor 0xE0 (N.shiftr c 12)
                             :: N.lor 0x80 (N.land (N.shiftr c 6) 0x3F)
                             :: N.lor 0x80 (N.land c 0x3F) :: r) rest
      else if c <? 0x110000 then
        option_map (fun r => N.lor 0xF0 (N.shiftr c 18)
                             :: N.lor 0x80 (N.land (N.shiftr c 12) 0x3F)
                             :: N.lor 0x80 (N.land (N.shiftr c 6) 0x3F)
                             :: N.lor 0x80 (N.land c 0x3F) :: r) rest
      else None
  end.

(** ** [str.strip()] *)

(** [str.isspace] for one code point. *)
Definition is_space (c : N) : bool :=
  in_range 0x09 0x0D c || in_range 0x1C 0x20 c || (c =? 0x85) || (c =? 0xA0)
  || (c =? 0x1680) || in_range 0x2000 0x200A c || (c =? 0x2028)
  || (c =? 0x2029) || (c =? 0x202F) || (c =? 0x205F) || (c =? 0x3000).

Fixpoint lstrip (s : str) : str :=
  match s with
  | c :: s' => if is_space c then lstrip s' else s
  | [] => []
  end.

Definition rstrip (s : str) : str := rev (lstrip (rev s)).

Definition strip (s : str) : str := rstrip (lstrip s).

(** ** [json.dumps] with its default settings

    [ensure_ascii=True], separators [", "] and [": "], no indentation. *)

(** ["0123456789abcdef"[d]] *)
Definition hex_digit (d : N) : N := if d <? 10 then 48 + d else 87 + d.

(** ['{0:04x}'.format(c)] for [c < 0x10000]. *)
Definition hex4 (c : N) : str :=
  [ hex_digit (N.land (N.shiftr c 12) 0xF);
    hex_digit (N.land (N.shiftr c 8) 0xF);
    hex_digit (N.land (N.shiftr c 4) 0xF);
    hex_digit (N.land c 0xF) ].

Definition is_high_surrogate (c : N) : bool := in_range 0xD800 0xDBFF c.
Definition is_low_surrogate (c : N) : bool := in_range 0xDC00 0xDFFF c.

(** One code point of [encode_basestring_ascii]. *)
Definition escape_char (c : N) : str :=
  if c =? 34 then [92; 34]
  else if c =? 92 then [92; 92]
  else if c =? 10 then [92; 110]
  else if c =? 13 then [92; 114]
  else if c =? 9 then [92; 116]
  else if c =? 8 then [92; 98]
  else if c =? 12 then [92; 102]
  else if in_range 32 126 c then [c]
  else if c <? 0x10000 then 92 :: 117 :: hex4 c
  else
    let v := c - 0x10000 in
    (92 :: 117 :: hex4 (N.lor 0xD800 (N.land (N.shiftr v 10) 0x3FF)))
    ++ (92 :: 117 :: hex4 (N.lor 0xDC00 (N.land v 0x3FF))).

Definition encode_basestring_ascii (s : str) : str :=
  34 :: flat_map escape_char s ++ [34].

Fixpoint uint_chars (d : Decimal.uint) : str :=
  match d with
  | Decimal.Nil => []
  | Decimal.D0 d => 48 :: uint_chars d
  | Decimal.D1 d => 49 :: uint_chars d
  | Decimal.D2 d => 50 :: uint_chars d
  | Decimal.D3 d => 51 :: uint_chars d
  | Decimal.D4 d => 52 :: uint_chars d
  | Decimal.D5 d => 53 :: uint_chars d
  | Decimal.D6 d => 54 :: uint_chars d
  | Decimal.D7 d => 55 :: uint_chars d
  | Decimal.D8 d => 56 :: uint_chars d
  | Decimal.D9 d => 57 :: uint_chars d
  end.

(** [int.__repr__] *)
Definition int_repr (n : Z) : str :=
  match Z.to_int n with
  | Decimal.Pos d => uint_chars d
  | Decimal.Neg d => 45 :: uint_chars d
  end.

(** [sep.join(parts)] *)
Fixpoint join (sep : str) (parts : list str) : str :=
  match parts with
  | [] => []
  | [p] => p
  | p :: ps => p ++ sep ++ join sep ps
  end.

Fixpoint dumps (v : json) : str :=
  match v with
  | JNull => py "null"
  | JBool true => py "true"
  | JBool false => py "false"
  | JNum n => int_repr n
  | JStr s => encode_basestring_ascii s
  | JArr l => 91 :: join (py ", ") (List.map dumps l) ++ [93]
  | JObj d =>
      123 :: join (py ", ")
               (List.map (fun kv => encode_basestring_ascii (fst kv)
                                    ++ py ": " ++ dumps (snd kv)) d)
          ++ [125]
  end.

(** ** [json.loads] (scanner of [json.decoder] / [json.scanner]) *)

(** [WHITESPACE]: space, tab, line feed, carriage return. *)
Definition is_ws (c : N) : bool :=
  (c =? 32) || (c =? 9) || (c =? 10) || (c =? 13).

Fixpoint skip_ws (s : str) : str :=
  match s with
  | c :: s' => if is_ws c then skip_ws s' else s
  | [] => []
  end.

Definition hex_value (c : N) : option N :=
  if in_range 48 57 c then Some (c - 48)
  else if in_range 97 102 c then Some (c - 87)
  else if in_range 65 70 c then Some (c - 55)
  else None.

(** [_decode_uXXXX]: the four hex digits after [\u]. *)
Definition decode_hex4 (h1 h2 h3 h4 : N) : option N :=
  match hex_value h1, hex_value h2, hex_value h3, hex_value h4 with
  | Some a, Some b, Some c, Some d => Some (((a * 16 + b) * 16 + c) * 16 + d)
  | _, _, _, _ => None
  end.

(** [0x10000 + (((uni - 0xd800) << 10) | (uni2 - 0xdc00))] *)
Definition join_surrogates (hi lo : N) : N :=
  0x10000 + N.lor (N.shiftl (hi - 0xD800) 10) (lo - 0xDC00).

(** [scanstring(s, end, strict=True)], entered after the opening quote;
    returns the decoded string and the text after the closing quote. *)
Fixpoint scanstring (s : str) : option (str * str) :=
  match s with
  | [] => None
  | c :: r =>
      if c =? 34 then Some ([], r)
      else if c =? 92 then
        match r with
        | [] => None
        | e :: r1 =>
            let lit (x : N) :=
              option_map (fun p => (x :: fst p, snd p)) (scanstring r1) in
            if e =? 34 then lit 34
            else if e =? 92 then lit 92
            else if e =? 47 then lit 47
            else if e =? 98 then lit 8
            else if e =? 102 then lit 12
            else if e =? 110 then lit 10
            else if e =? 114 then lit 13
            else if e =? 116 then lit 9
            else if e =? 117 then
              match r1 with
              | h1 :: h2 :: h3 :: h4 :: r2 =>
                  match decode_hex4 h1 h2 h3 h4 with
                  | None => None
                  | Some uni =>
                      let single :=
                        option_map (fun p => (uni :: fst p, snd p))
                                   (scanstring r2) in
                      if is_high_surrogate uni then
                        match r2 with
                        | b :: u :: g1 :: g2 :: g3 :: g4 :: r3 =>
                            if (b =? 92) && (u =? 117) then
                              match decode_hex4 g1 g2 g3 g4 with
                              | None => None
                              | Some uni2 =>
                                  if is_low_surrogate uni2 then
                                    option_map
                                      (fun p => (join_surrogates uni uni2
                                                   :: fst p, snd p))
                                      (scanstring r3)
                                  else single
                              end
                            else single
                        | _ => single
                        end
                      else single
                  end
              | _ => None
              end
            else None
        end
      else if c <? 32 then None
      else option_map (fun p => (c :: fst p, snd p)) (scanstring r)
  end.

Definition is_digit (c : N) : bool := in_range 48 57 c.

(** The longest prefix of decimal digits, and what follows it. *)
Fixpoint span_digits (s : str) : str * str :=
  match s with
  | c :: s' =>
      if is_digit c
      then let p := span_digits s' in (c :: fst p, snd p)
      else ([], s)
  | [] => ([], [])
  end.

Definition digit_uint (c : N) (d : Decimal.uint) : Decimal.uint :=
  if c =? 48 then Decimal.D0 d
  else if c =? 49 then Decimal.D1 d
  else if c =? 50 then Decimal.D2 d
  else if c =? 51 then Decimal.D3 d
  else if c =? 52 then Decimal.D4 d
  else if c =? 53 then Decimal.D5 d
  else if c =? 54 then Decimal.D6 d
  else if c =? 55 then Decimal.D7 d
  else if c =? 56 then Decimal.D8 d
  else Decimal.D9 d.

Fixpoint chars_uint (ds : str) : Decimal.uint :=
  match ds with
  | [] => Decimal.Nil
  | c :: ds' => digit_uint c (chars_uint ds')
  end.

(** Does a fraction (a point and a digit) or an exponent (e or E, an
    optional sign, a digit) follow?  Such a literal is a Python float. *)
Definition float_follows (s : str) : bool :=
  match s with
  | 46 :: d :: _ => is_digit d
  | e :: r =>
      if (e =? 101) || (e =? 69) then
        match r with
        | d :: r' =>
            if is_digit d then true
            else if (d =? 43) || (d =? 45) then
              match r' with d' :: _ => is_digit d' | [] => false end
            else false
        | [] => false
        end
      else false
  | [] => false
  end.

(** [NUMBER_RE]: an optional minus sign, then 0 or a digit string without
    leading zero, then an optional fraction and an optional exponent; only
    the integer case is in the model. *)
Definition match_number (s : str) : option (json * str) :=
  let '(neg, s1) :=
    match s with
    | c :: r => if c =? 45 then (true, r) else (false, s)
    | [] => (false, s)
    end in
  let digits :=
    match s1 with
    | c :: r =>
        if c =? 48 then Some ([48], r)
        else if in_range 49 57 c
        then let p := span_digits r in Some (c :: fst p, snd p)
        else None
    | [] => None
    end in
  match digits with
  | None => None
  | Some (ds, rest) =>
      if float_follows rest then None
      else
        let d := chars_uint ds in
        Some (JNum (Z.of_int (if neg then Decimal.Neg d else Decimal.Pos d)),
              rest)
  end.

(** [scan_once], [JSONArray] and [JSONObject]; [fuel] bounds the number of
    nested calls. *)
Fixpoint scan_once (fuel : nat) (s : str) {struct fuel}
  : option (json * str) :=
  match fuel with
  | O => None
  | S fuel' =>
      match s with
      | [] => None
      | c :: r =>
          if c =? 34 then
            option_map (fun p => (JStr (fst p), snd p)) (scanstring r)
          else if c =? 123 then
            match skip_ws r with
            | c1 :: r1 =>
                if c1 =? 125 then Some (JObj [], r1)
                else if c1 =? 34 then
                  option_map (fun p => (JObj (dict_of_pairs (fst p)), snd p))
                             (object_loop fuel' r1)
                else None
            | [] => None
            end
          else if c =? 91 then
            match skip_ws r with
            | c1 :: r1 =>
                if c1 =? 93 then Some (JArr [], r1)
                else option_map (fun p => (JArr (fst p), snd p))
                                (array_loop fuel' (c1 :: r1))
            | [] => None
            end
          else
            match s with
            | 110 :: 117 :: 108 :: 108 :: r' => Some (JNull, r')
            | 116 :: 114 :: 117 :: 101 :: r' => Some (JBool true, r')
            | 102 :: 97 :: 108 :: 115 :: 101 :: r' => Some (JBool false, r')
            | _ => match_number s
            end
      end
  end

with array_loop (fuel : nat) (s : str) {struct fuel}
  : option (list json * str) :=
  match fuel with
  | O => None
  | S fuel' =>
      match scan_once fuel' s with
      | None => None
      | Some (value, r) =>
          match skip_ws r with
          | c :: r1 =>
              if c =? 93 then Some ([value], r1)
              else if c =? 44 then
                option_map (fun p => (value :: fst p, snd p))
                           (array_loop fuel' (skip_ws r1))
              else None
          | [] => None
          end
      end
  end

with object_loop (fuel : nat) (s : str) {struct fuel}
  : option (list (str * json) * str) :=
  match fuel with
  | O => None
  | S fuel' =>
      match scanstring s with
      | None => None
      | Some (key, r) =>
          match skip_ws r with
          | c :: r1 =>
              if c =? 58 then
                match scan_once fuel' (skip_ws r1) with
                | None => None
                | Some (value, r2) =>
                    match skip_ws r2 with
                    | c2 :: r3 =>
                        if c2 =? 125 then Some ([(key, value)], r3)
                        else if c2 =? 44 then
                          match skip_ws r3 with
                          | c3 :: r4 =>
                              if c3 =? 34 then
                                option_map
                                  (fun p => ((key, value) :: fst p, snd p))
                                  (object_loop fuel' r4)
                              else None
                          | [] => None
                          end
                        else None
                    | [] => None
                    end
                end
              else None
          | [] => None
          end
      end
  end.

(** [JSONDecoder.decode]: one value, surrounded by optional whitespace and
    nothing else.  [None] stands for [json.JSONDecodeError]. *)
Definition loads (s : str) : option json :=
  match scan_once (2 * List.length s + 2) (skip_ws s) with
  | Some (v, r) => match skip_ws r with [] => Some v | _ => None end
  | None => None
  end.

(** ** Exceptions, log records, streams *)

Inductive exn : Type :=
| JavaScriptError (message : json)
| AttributeError
| KeyError (key : str)
| TypeError
| ValueError
| UnicodeDecodeError
| UnicodeEncodeError.

Inductive level : Type := INFO | WARNING | ERROR.

Record log_record : Type := LogRecord { lvl : level; msg : str }.

(** [asyncio.StreamReader]: the bytes received and not yet consumed, and
    whether [feed_eof] was called. *)
Record StreamReader : Type := mkReader { buffer : bytes; at_eof : bool }.

(** [limit=512 * 1024] in [create_subprocess_exec]. *)
Definition limit : N := 512 * 1024.

(** [asyncio.StreamWriter] over the child's stdin pipe: the bytes handed to
    the transport, and whether [write_eof] and [close] were called. *)
Record StreamWriter : Type :=
  mkWriter { sent : bytes; eof_written : bool; closed : bool }.

(** The prefix before the first line feed and the bytes after it. *)
Fixpoint split_line (b : bytes) : option (bytes * bytes) :=
  match b with
  | [] => None
  | c :: b' =>
      if c =? 10 then Some ([], b')
      else option_map (fun p => (c :: fst p, snd p)) (split_line b')
  end.

Definition blen (b : bytes) : N := N.of_nat (List.length b).

Inductive readline_result : Type :=
| RlWait
| RlLine (line : bytes) (r : StreamReader)
| RlValueError (r : StreamReader).

(** [StreamReader.readline()]: a full line with its terminator; at end of
    stream whatever is left, possibly [b""]; [ValueError] when the line is
    longer than the limit; otherwise the caller waits for data. *)
Definition readline (r : StreamReader) : readline_result :=
  match split_line (buffer r) with
  | Some (line, rest) =>
      if limit <? blen line
      then RlValueError (mkReader rest (at_eof r))
      else RlLine (line ++ [10]) (mkReader rest (at_eof r))
  | None =>
      if limit <? blen (buffer r)
      then RlValueError (mkReader [] (at_eof r))
      else if at_eof r
      then RlLine (buffer r) (mkReader [] true)
      else RlWait
  end.

(** ** The [NumWorks] object and its surroundings *)

Record NumWorks : Type := mkNumWorks {
  proc : option nat;
  writer : option StreamWriter;
  reader : option StreamReader;
  stderr : option StreamReader;
  ready : bool;
  queue : list json
}.

(** The background coroutines handed to [asyncio.ensure_future]. *)
Inductive task_name : Type := RedirectStderr | ReadTask | WaitForReady.

(** Operations on the pipes, the queue and the event, in the order they
    were performed. *)
Inductive event : Type :=
| EvSpawn
| EvWrite (data : bytes)
| EvWriteEof
| EvClose
| EvPut (v : json)
| EvGet (v : json)
| EvSet
| EvClear.

Record world : Type := mkWorld {
  self : NumWorks;
  logger_disabled : bool;
  log : list log_record;
  spawned : nat;
  tasks : list task_name;
  trace : list event
}.

(** [NumWorks.__init__] *)
Definition NumWorks_init : NumWorks :=
  mkNumWorks None None None None false [].

Definition set_self (w : world) (o : NumWorks) : world :=
  mkWorld o (logger_disabled w) (log w) (spawned w) (tasks w) (trace w).

Definition record (w : world) (e : event) : world :=
  mkWorld (self w) (logger_disabled w) (log w) (spawned w) (tasks w)
          (trace w ++ [e]).

Definition set_ready (o : NumWorks) (b : bool) : NumWorks :=
  mkNumWorks (proc o) (writer o) (reader o) (stderr o) b (queue o).
Definition set_queue (o : NumWorks) (q : list json) : NumWorks :=
  mkNumWorks (proc o) (writer o) (reader o) (stderr o) (ready o) q.
Definition set_writer (o : NumWorks) (x : StreamWriter) : NumWorks :=
  mkNumWorks (proc o) (Some x) (reader o) (stderr o) (ready o) (queue o).
Definition set_reader (o : NumWorks) (x : StreamReader) : NumWorks :=
  mkNumWorks (proc o) (writer o) (Some x) (stderr o) (ready o) (queue o).
Definition set_stderr (o : NumWorks) (x : StreamReader) : NumWorks :=
  mkNumWorks (proc o) (writer o) (reader o) (Some x) (ready o) (queue o).

(** ** Coroutines *)

(** What a coroutine can ask of the event loop, the streams and the
    logger, indexed by the type of the answer. *)
Inductive effect : Type -> Type :=
| QueueGet : effect json
| QueuePut (v : json) : effect unit
| EventWait : effect unit
| EventSet : effect unit
| EventClear : effect unit
| WriterWrite (data : bytes) : effect unit
| WriterDrain : effect unit
| WriterWriteEof : effect unit
| WriterClose : effect unit
| SelfReader : effect nat
| SelfStderr : effect nat
| ReaderReadline (stream : nat) : effect bytes
| StderrReadline (stream : nat) : effect bytes
| Log (l : level) (m : str) : effect unit
| LoggerSetDisabled (b : bool) : effect unit
| CreateSubprocess : effect unit
| EnsureFuture (t : task_name) : effect unit.

Inductive coro (A : Type) : Type :=
| Ret (a : A)
| Raise (e : exn)
| Eff (X : Type) (e : effect X) (k : X -> coro A).

Arguments Ret {A} a.
Arguments Raise {A} e.
Arguments Eff {A X} e k.

Fixpoint bind {A B : Type} (c : coro A) (f : A -> coro B) : coro B :=
  match c with
  | Ret a => f a
  | Raise e => Raise e
  | Eff e k => Eff e (fun x => bind (k x) f)
  end.

Definition await {X : Type} (e : effect X) : coro X := Eff e Ret.

Declare Scope coro_scope.
Delimit Scope coro_scope with coro.
Notation "x <- c ;; k" := (bind c (fun x => k))
  (at level 61, c at next level, right associativity) : coro_scope.
Notation "c ;; k" := (bind c (fun _ => k))
  (at level 61, right associativity) : coro_scope.
Local Open Scope coro_scope.

(** The answer of the surroundings to one effect. *)
Inductive reply (X : Type) : Type :=
| Suspend
| Return (x : X) (w : world)
| Throw (e : exn) (w : world).

Arguments Suspend {X}.
Arguments Return {X} x w.
Arguments Throw {X} e w.

Definition on_writer (w : world)
  (f : StreamWriter -> StreamWriter) (ev : option event) : reply unit :=
  match writer (self w) with
  | None => Throw AttributeError w
  | Some x =>
      let w' := set_self w (set_writer (self w) (f x)) in
      Return tt (match ev with Some e => record w' e | None => w' end)
  end.

(** Evaluating [self.reader.readline] (or [self.stderr.readline]) picks
    the stream object of the current child; streams are identified by the
    number of the child they belong to. *)
Definition on_attribute (w : world) : reply nat :=
  match proc (self w) with
  | None => Throw AttributeError w
  | Some p => Return p w
  end.

(** Awaiting [readline()] on the stream that was picked.  The stream of a
    child that has been replaced since receives nothing further. *)
Definition on_readline (w : world) (stream : nat) (r : option StreamReader)
  (store : NumWorks -> StreamReader -> NumWorks) : reply bytes :=
  match proc (self w), r with
  | Some p, Some x =>
      if Nat.eqb p stream then
        match readline x with
        | RlWait => Suspend
        | RlLine line x' => Return line (set_self w (store (self w) x'))
        | RlValueError x' => Throw ValueError (set_self w (store (self w) x'))
        end
      else Suspend
  | _, _ => Suspend
  end.

Definition handle {X : Type} (e : effect X) (w : world) : reply X :=
  match e in effect X return reply X with
  | QueueGet =>
      match queue (self w) with
      | [] => Suspend
      | v :: q => Return v (record (set_self w (set_queue (self w) q)) (EvGet v))
      end
  | QueuePut v =>
      Return tt (record (set_self w (set_queue (self w) (queue (self w) ++ [v])))
                        (EvPut v))
  | EventWait => if ready (self w) then Return tt w else Suspend
  | EventSet => Return tt (record (set_self w (set_ready (self w) true)) EvSet)
  | EventClear =>
      Return tt (record (set_self w (set_ready (self w) false)) EvClear)
  | WriterWrite data =>
      on_writer w
        (fun x => if eof_written x || closed x then x
                  else mkWriter (sent x ++ data) (eof_written x) (closed x))
        (Some (EvWrite data))
  | WriterDrain => on_writer w (fun x => x) None
  | WriterWriteEof =>
      on_writer w (fun x => mkWriter (sent x) true (closed x)) (Some EvWriteEof)
  | WriterClose =>
      on_writer w (fun x => mkWriter (sent x) (eof_written x) true) (Some EvClose)
  | SelfReader => on_attribute w
  | SelfStderr => on_attribute w
  | ReaderReadline p => on_readline w p (reader (self w)) set_reader
  | StderrReadline p => on_readline w p (stderr (self w)) set_stderr
  | Log l m =>
      Return tt
        (if logger_disabled w then w
         else mkWorld (self w) (logger_disabled w) (log w ++ [LogRecord l m])
                      (spawned w) (tasks w) (trace w))
  | LoggerSetDisabled b =>
      Return tt (mkWorld (self w) b (log w) (spawned w) (tasks w) (trace w))
  | CreateSubprocess =>
      let n := S (spawned w) in
      Return tt
        (mkWorld (mkNumWorks (Some n) (Some (mkWriter [] false false))
                             (Some (mkReader [] false))
                             (Some (mkReader [] false))
                             (ready (self w)) (queue (self w)))
                 (logger_disabled w) (log w) n (tasks w)
                 (trace w ++ [EvSpawn]))
  | EnsureFuture t =>
      Return tt (mkWorld (self w) (logger_disabled w) (log w) (spawned w)
                         (tasks w ++ [t]) (trace w))
  end.

(** The result of running a coroutine for as long as it does not wait. *)
Inductive outcome (A : Type) : Type :=
| Done (a : A) (w : world)
| Failed (e : exn) (w : world)
| Blocked (c : coro A) (w : world).

Arguments Done {A} a w.
Arguments Failed {A} e w.
Arguments Blocked {A} c w.

Fixpoint exec {A : Type} (c : coro A) (w : world) : outcome A :=
  match c with
  | Ret a => Done a w
  | Raise e => Failed e w
  | Eff e k =>
      match handle e w with
      | Suspend => Blocked c w
      | Return x w' => exec (k x) w'
      | Throw ex w' => Failed ex w'
      end
  end.

(** [while True:] loops.  The body says whether the loop goes on
    ([Continue], also reached by falling off the end of the body) or is
    left by [break]. *)
Inductive ctl : Type := Continue | Break.

Inductive loop_outcome : Type :=
| LoopExit (w : world)
| LoopFailed (e : exn) (w : world)
| LoopBlocked (c : coro ctl) (w : world)
| LoopRunning (c : coro ctl) (w : world).

(** At most [n] iterations of the loop whose body is [body], starting in
    the middle of an iteration at [cur]. *)
Fixpoint run_loop (n : nat) (body cur : coro ctl) (w : world) : loop_outcome :=
  match n with
  | O => LoopRunning cur w
  | S n' =>
      match exec cur w with
      | Done Continue w' => run_loop n' body body w'
      | Done Break w' => LoopExit w'
      | Failed e w' => LoopFailed e w'
      | Blocked c w' => LoopBlocked c w'
      end
  end.

(** ** The methods of [NumWorks] *)

(** [value[key]] for a string key. *)
Definition subscript (value : json) (key : str) : coro json :=
  match value with
  | JObj d =>
      match dict_lookup key d with
      | Some v => Ret v
      | None => Raise (KeyError key)
      end
  | _ => Raise TypeError
  end.

Definition start : coro unit :=
  await (Log INFO (py "Starting NumWorks object")) ;;
  await CreateSubprocess ;;
  await (EnsureFuture RedirectStderr) ;;
  await (EnsureFuture ReadTask) ;;
  await (EnsureFuture WaitForReady).

Definition ensure_ready : coro unit := await EventWait.

(** One iteration of the loop of [_wait_for_ready]. *)
Definition _wait_for_ready : coro ctl :=
  data <- await QueueGet ;;
  match data with
  | JObj d =>
      if truthy (dict_get (py "ready") (JBool false) d)
      then await EventSet ;; Ret Break
      else Ret Continue
  | _ => Raise AttributeError
  end.

(** One iteration of the loop of [_redirect_stderr]: the stream object is
    picked, then a line is awaited on it. *)
Definition _redirect_stderr_on (stream : nat) : coro ctl :=
  data <- await (StderrReadline stream) ;;
  match utf8_decode data with
  | None => Raise UnicodeDecodeError
  | Some text =>
      let data := strip text in
      match data with
      | [] => Ret Continue
      | _ => await (Log ERROR data) ;; Ret Continue
      end
  end.

Definition _redirect_stderr : coro ctl :=
  stream <- await SelfStderr ;;
  _redirect_stderr_on stream.

(** One iteration of the loop of [_read], in the same two steps. *)
Definition _read_on (stream : nat) : coro ctl :=
  data <- await (ReaderReadline stream) ;;
  match utf8_decode data with
  | None => Raise UnicodeDecodeError
  | Some text =>
      let data := strip text in
      match loads data with
      | None =>
          await (Log WARNING (py "Invalid JSON data: " ++ data)) ;;
          Ret Continue
      | Some data => await (QueuePut data) ;; Ret Continue
      end
  end.

Definition _read : coro ctl :=
  stream <- await SelfReader ;;
  _read_on stream.

Definition _write (data : json) : coro unit :=
  let data := dumps data in
  match utf8_encode data with
  | None => Raise UnicodeEncodeError
  | Some b =>
      await (WriterWrite b) ;;
      await (WriterWrite [10]) ;;
      await WriterDrain
  end.

Definition _get_result : coro json :=
  result <- await QueueGet ;;
  match result with
  | JObj d =>
      if truthy (dict_get (py "error") (JBool false) d)
      then e <- subscript result (py "error") ;; Raise (JavaScriptError e)
      else Ret result
  | _ => Ret result
  end.

Definition connect : coro json :=
  await (Log INFO (py "Connecting to the NumWorks")) ;;
  ensure_ready ;;
  let command := JObj [(py "method", JStr (py "connect"))] in
  _write command ;;
  _get_result.

Definition disconnect : coro json :=
  await (Log INFO (py "Disconnecting from the NumWorks")) ;;
  ensure_ready ;;
  let command := JObj [(py "method", JStr (py "disconnect"))] in
  _write command ;;
  _get_result.

Definition status : coro json :=
  await (Log INFO (py "Getting the status of the NumWorks")) ;;
  ensure_ready ;;
  let command := JObj [(py "method", JStr (py "status"))] in
  _write command ;;
  _get_result.

Definition ensure_connected : coro unit :=
  ensure_ready ;;
  await (LoggerSetDisabled true) ;;
  status <- status ;;
  await (LoggerSetDisabled false) ;;
  st <- subscript status (py "status") ;;
  if negb (truthy st) then connect ;; Ret tt else Ret tt.

Definition get_model : coro json :=
  await (Log INFO (py "Getting the model of the NumWorks")) ;;
  ensure_connected ;;
  let command := JObj [(py "method", JStr (py "getModel"))] in
  _write command ;;
  _get_result.

Definition get_platform_info : coro json :=
  ensure_connected ;;
  await (Log INFO (py "Getting the platformInfo of the NumWorks")) ;;
  let command := JObj [(py "method", JStr (py "getPlatformInfo"))] in
  _write command ;;
  _get_result.

Definition backup_storage : coro json :=
  await (Log INFO (py "Backing up the storage of the NumWorks")) ;;
  ensure_connected ;;
  let command := JObj [(py "method", JStr (py "backupStorage"))] in
  _write command ;;
  _get_result.

Definition install_storage (storage : json) : coro json :=
  await (Log INFO (py "Installing the storage on the NumWorks")) ;;
  ensure_connected ;;
  let command := JObj [(py "method", JStr (py "installStorage"));
                       (py "args", JArr [storage])] in
  _write command ;;
  _get_result.

Definition stop : coro unit :=
  await (Log INFO (py "Stopping NumWorks object")) ;;
  disconnect ;;
  await WriterWriteEof ;;
  await WriterClose ;;
  await EventClear.

(** ** The child process and the event loop

    The client is one of several tasks of an asyncio event loop and talks
    to a child process.  [feed_data] and [feed_eof] are what the transport
    does to the reader when the child writes to its standard output or
    closes it. *)

Definition feed_data (data : bytes) (w : world) : world :=
  match reader (self w) with
  | Some r => set_self w (set_reader (self w)
                            (mkReader (buffer r ++ data) (at_eof r)))
  | None => w
  end.

Definition feed_eof (w : world) : world :=
  match reader (self w) with
  | Some r => set_self w (set_reader (self w) (mkReader (buffer r) true))
  | None => w
  end.

Definition feed_stderr (data : bytes) (w : world) : world :=
  match stderr (self w) with
  | Some r => set_self w (set_stderr (self w)
                            (mkReader (buffer r ++ data) (at_eof r)))
  | None => w
  end.

Definition feed_stderr_eof (w : world) : world :=
  match stderr (self w) with
  | Some r => set_self w (set_stderr (self w) (mkReader (buffer r) true))
  | None => w
  end.

(** The complete lines of a byte sequence, without their terminators;
    [cur] is the beginning of the line being read. *)
Fixpoint lines_from (cur : bytes) (b : bytes) : list bytes :=
  match b with
  | [] => []
  | c :: b' =>
      if c =? 10 then cur :: lines_from [] b'
      else lines_from (cur ++ [c]) b'
  end.

Definition request_lines (w : world) : list bytes :=
  match writer (self w) with
  | Some x => lines_from [] (sent x)
  | None => []
  end.

(** The state of a background task between two runs. *)
Inductive task_state : Type :=
| Pending (c : coro ctl)
| Exited
| Dead (e : exn)
| Spinning.

Definition body_of (t : task_name) : coro ctl :=
  match t with
  | RedirectStderr => _redirect_stderr
  | ReadTask => _read
  | WaitForReady => _wait_for_ready
  end.

(** A bound on the iterations a loop can make before it has to wait: each
    one consumes a byte of a stream or an entry of the queue. *)
Definition iterations (w : world) : nat :=
  List.length (queue (self w))
  + match reader (self w) with Some r => List.length (buffer r) | None => O end
  + match stderr (self w) with Some r => List.length (buffer r) | None => O end
  + 2.

Definition step_task (t : task_name) (c : coro ctl) (w : world)
  : task_state * world :=
  match run_loop (iterations w) (body_of t) c w with
  | LoopExit w' => (Exited, w')
  | LoopFailed e w' => (Dead e, w')
  | LoopBlocked c' w' => (Pending c', w')
  | LoopRunning _ w' => (Spinning, w')
  end.

Fixpoint run_tasks (pool : list (task_name * task_state)) (w : world)
  : list (task_name * task_state) * world :=
  match pool with
  | [] => ([], w)
  | (t, Pending c) :: rest =>
      let '(st, w1) := step_task t c w in
      let '(rest', w2) := run_tasks rest w1 in
      ((t, st) :: rest', w2)
  | p :: rest =>
      let '(rest', w2) := run_tasks rest w in
      (p :: rest', w2)
  end.

Definition is_spinning (p : task_name * task_state) : bool :=
  match snd p with Spinning => true | _ => false end.

Section EventLoop.

(** The child: what it writes to its standard output in reaction to the
    request lines received so far, the last one being the request it
    reacts to; [child []] is what it writes when it starts.  Its error
    stream stays silent and it does not exit. *)
Variable child : list bytes -> bytes.

Record system : Type := mkSystem {
  sworld : world;
  pool : list (task_name * task_state);
  child_id : nat;
  served : nat
}.

(** Tasks scheduled with [ensure_future] since the last round join the
    pool. *)
Definition adopt (sys : system) : system :=
  mkSystem (sworld sys)
           (pool sys
            ++ List.map (fun t => (t, Pending (body_of t)))
                        (skipn (List.length (pool sys)) (tasks (sworld sys))))
           (child_id sys) (served sys).

(** [n] reactions of the child, from the [k]-th on. *)
Fixpoint reactions (n k : nat) (reqs : list bytes) : bytes :=
  match n with
  | O => []
  | S n' => child (firstn k reqs) ++ reactions n' (S k) reqs
  end.

(** The child reacts to its start and to every request line it has not
    reacted to yet. *)
Definition child_turn (sys : system) : system :=
  let w := sworld sys in
  match proc (self w) with
  | None => sys
  | Some p =>
      let k := if Nat.eqb p (child_id sys) then served sys else O in
      let reqs := request_lines w in
      let n := (S (List.length reqs) - k)%nat in
      mkSystem (feed_data (reactions n k reqs) w) (pool sys) p (k + n)%nat
  end.

Definition background (sys : system) : system :=
  let '(pool', w') := run_tasks (pool sys) (sworld sys) in
  mkSystem w' pool' (child_id sys) (served sys).

Definition round (sys : system) : system :=
  background (child_turn (adopt sys)).

Inductive run_result (A : Type) : Type :=
| Finished (a : A) (sys : system)
| Raised (e : exn) (sys : system)
| Hung (sys : system)
| Unfinished (c : coro A) (sys : system).

Arguments Finished {A} a sys.
Arguments Raised {A} e sys.
Arguments Hung {A} sys.
Arguments Unfinished {A} c sys.

Definition with_world (sys : system) (w : world) : system :=
  mkSystem w (pool sys) (child_id sys) (served sys).

(** The caller's coroutine [c] runs until it waits; then the child and
    the background tasks have their turn; and so on, for at most [fuel]
    rounds.  A background task that goes on without ever waiting keeps
    the event loop for itself. *)
Fixpoint drive {A : Type} (fuel : nat) (c : coro A) (sys : system)
  : run_result A :=
  match exec c (sworld sys) with
  | Done a w => Finished a (with_world sys w)
  | Failed e w => Raised e (with_world sys w)
  | Blocked c' w =>
      match fuel with
      | O => Unfinished c' (with_world sys w)
      | S fuel' =>
          let sys' := round (with_world sys w) in
          if existsb is_spinning (pool sys') then Hung sys'
          else drive fuel' c' sys'
      end
  end.

End EventLoop.

Arguments Finished {A} a sys.
Arguments Raised {A} e sys.
Arguments Hung {A} sys.
Arguments Unfinished {A} c sys.

(** ** Vocabulary of the statements *)

(** The RPC methods of the client. *)
Inductive rpc : Type :=
| Connect
| Disconnect
| Status
| GetModel
| GetPlatformInfo
| BackupStorage
| InstallStorage (storage : json).

Definition call (m : rpc) : coro json :=
  match m with
  | Connect => connect
  | Disconnect => disconnect
  | Status => status
  | GetModel => get_model
  | GetPlatformInfo => get_platform_info
  | BackupStorage => backup_storage
  | InstallStorage storage => install_storage storage
  end.

(** A response is an error response when it is an object with a truthy
    [error] field; [error_of] is the content of that field. *)
Definition has_error (v : json) : bool :=
  match v with
  | JObj d => truthy (dict_get (py "error") (JBool false) d)
  | _ => false
  end.

Definition error_of (v : json) : json :=
  match v with
  | JObj d => dict_get (py "error") (JBool false) d
  | _ => JBool false
  end.

(** The world after [v] has been taken from the head of the queue. *)
Definition dequeued (w : world) (v : json) (q : list json) : world :=
  record (set_self w (set_queue (self w) q)) (EvGet v).

(** What the answer to an effect tells about the queue: the value that was
    just dequeued, if the effect was [QueueGet]. *)
Definition got {X : Type} (e : effect X) : X -> option json :=
  match e in effect X return X -> option json with
  | QueueGet => fun v => Some v
  | _ => fun _ => None
  end.

(** Every [JavaScriptError] the coroutine raises follows a dequeue
    directly and carries the [error] field of the error response just
    dequeued; what it returns satisfies [R].  [last] is the value dequeued
    by the preceding effect, if that was a dequeue.  Exceptions of other
    classes are not constrained. *)
Fixpoint attributed {A : Type} (R : option json -> A -> Prop)
  (last : option json) (c : coro A) : Prop :=
  match c with
  | Ret a => R last a
  | Raise (JavaScriptError e) =>
      match last with
      | Some v => has_error v = true /\ e = error_of v
      | None => False
      end
  | Raise _ => True
  | Eff e k => forall x, attributed R (got e x) (k x)
  end.

(** The value returned is the one just dequeued, and no error response. *)
Definition returns_dequeued (last : option json) (a : json) : Prop :=
  match last with
  | Some v => a = v /\ has_error v = false
  | None => False
  end.

Definition answers (last : option json) (c : coro json) : Prop :=
  attributed returns_dequeued last c.

(** The world is the one a dequeue of [last] has just produced. *)
Definition from_dequeue (last : option json) (w : world) : Prop :=
  match last with
  | Some v => exists w1 q, queue (self w1) = v :: q /\ w = dequeued w1 v q
  | None => True
  end.

(** The coroutine neither sets nor clears the event. *)
Fixpoint gate_free {A : Type} (c : coro A) : Prop :=
  match c with
  | Ret _ => True
  | Raise _ => True
  | Eff e k =>
      match e with
      | EventSet => False
      | EventClear => False
      | _ => True
      end /\ forall x, gate_free (k x)
  end.

(** [c'] is a point at which the event loop can find [c] suspended, in
    some surroundings. *)
Inductive stage_of {A : Type} (c : coro A) : coro A -> Prop :=
| stage_start : stage_of c c
| stage_resume : forall c1 w c2 w',
    stage_of c c1 -> exec c1 w = Blocked c2 w' -> stage_of c c2.

(** No constraint on what a coroutine returns. *)
Definition anything {A : Type} (_ : option json) (_ : A) : Prop := True.

Definition world_of {A : Type} (o : outcome A) : world :=
  match o with
  | Done _ w => w
  | Failed _ w => w
  | Blocked _ w => w
  end.


(** Induction on JSON values, with the hypothesis for every element of an
    array and every value of an object. *)
Definition json_induction (P : json -> Prop)
  (HNull : P JNull) (HBool : forall b, P (JBool b))
  (HNum : forall n, P (JNum n)) (HStr : forall s, P (JStr s))
  (HArr : forall l, Forall P l -> P (JArr l))
  (HObj : forall d, Forall (fun kv => P (snd kv)) d -> P (JObj d))
  : forall v, P v :=
  fix F (v : json) : P v :=
    match v with
    | JNull => HNull
    | JBool b => HBool b
    | JNum n => HNum n
    | JStr s => HStr s
    | JArr l =>
        HArr l ((fix G (l : list json) : Forall P l :=
                   match l with
                   | [] => Forall_nil P
                   | x :: l' => Forall_cons x (F x) (G l')
                   end) l)
    | JObj d =>
        HObj d ((fix G (d : list (str * json))
                   : Forall (fun kv => P (snd kv)) d :=
                   match d with
                   | [] => Forall_nil _
                   | kv :: d' => Forall_cons kv (F (snd kv)) (G d')
                   end) d)
    end.

(** Printable ASCII, the alphabet of what [json.dumps] writes. *)
Definition printable (c : N) : Prop := 32 <= c <= 126.
Definition ascii_text (s : str) : Prop := Forall printable s.

(** The world after [_write] has handed [cmd] and the line feed to the open
    writer [x]. *)
Definition requested (w : world) (x : StreamWriter) (cmd : json) : world :=
  mkWorld (set_writer (self w)
             (mkWriter (sent x ++ dumps cmd ++ [10]) false false))
          (logger_disabled w) (log w) (spawned w) (tasks w)
          (trace w ++ [EvWrite (dumps cmd); EvWrite [10]]).

(** The world after a record was handed to the logger. *)
Definition logged (w : world) (l : level) (m : str) : world :=
  if logger_disabled w then w
  else mkWorld (self w) false (log w ++ [LogRecord l m])
               (spawned w) (tasks w) (trace w).

Definition open (x : StreamWriter) : Prop :=
  eof_written x = false /\ closed x = false.

(** The world after [stop] has dequeued the answer [v] to its disconnect
    request and gone through its last three statements. *)
Definition stopped (w : world) (v : json) (q : list json) (x : StreamWriter)
  : world :=
  mkWorld (mkNumWorks (proc (self w)) (Some (mkWriter (sent x) true true))
                      (reader (self w)) (stderr (self w)) false q)
          (logger_disabled w) (log w) (spawned w) (tasks w)
          (trace w ++ [EvGet v; EvWriteEof; EvClose; EvClear]).

Definition command (method : string) : json :=
  JObj [(py "method", JStr (py method))].

(** The world after [logger.disabled = b]. *)
Definition set_logger_disabled (w : world) (b : bool) : world :=
  mkWorld (self w) b (log w) (spawned w) (tasks w) (trace w).

(** [v["status"]] when [v] is an object that has the key. *)
Definition status_of (v : json) : option json :=
  match v with
  | JObj d => dict_lookup (py "status") d
  | _ => None
  end.

(** Is the value an object with a truthy [ready] field? *)
Definition has_ready (v : json) : bool :=
  match v with
  | JObj d => truthy (dict_get (py "ready") (JBool false) d)
  | _ => false
  end.

(** The world after [self.ready.set()]. *)
Definition readied (w : world) : world :=
  record (set_self w (set_ready (self w) true)) EvSet.

(** The world after the values [vs] have been taken from the queue one by
    one. *)
Fixpoint dequeue_all (w : world) (vs : list json) : world :=
  match vs with
  | [] => w
  | v :: vs' => dequeue_all (dequeued w v (tl (queue (self w)))) vs'
  end.

(** What can happen to the world while the watcher is not running and
    [stop] is not called: a coroutine that neither sets nor clears the
    event runs until it returns, raises or waits, or the child writes to
    or closes one of its output streams. *)
Inductive session_step : world -> world -> Prop :=
| step_exec : forall (A : Type) (c : coro A) (w : world),
    gate_free c -> session_step w (world_of (exec c w))
| step_feed_data : forall data w, session_step w (feed_data data w)
| step_feed_eof : forall w, session_step w (feed_eof w)
| step_feed_stderr : forall data w, session_step w (feed_stderr data w)
| step_feed_stderr_eof : forall w, session_step w (feed_stderr_eof w).

Inductive evolves : world -> world -> Prop :=
| evolves_refl : forall w, evolves w w
| evolves_step : forall w1 w2 w3,
    evolves w1 w2 -> session_step w2 w3 -> evolves w1 w3.

(** Was the effect the clearing of the event? *)
Definition is_clear {X : Type} (e : effect X) : bool :=
  match e with
  | EventClear => true
  | _ => false
  end.

(** The coroutine returns only directly after clearing the event. *)
Fixpoint ends_cleared (just_cleared : bool) (c : coro unit) : Prop :=
  match c with
  | Ret _ => just_cleared = true
  | Raise _ => True
  | Eff e k => forall x, ends_cleared (is_clear e) (k x)
  end.

(** The loop body never asks to leave the loop. *)
Fixpoint never_breaks (c : coro ctl) : Prop :=
  match c with
  | Ret Break => False
  | Ret Continue => True
  | Raise _ => True
  | Eff e k => forall x, never_breaks (k x)
  end.

(** The world before [start()] and the one right after it. *)
Definition fresh : world := mkWorld NumWorks_init false [] O [] [].

Definition started : world := world_of (exec start fresh).

(** The world after [v] was put at the end of the queue. *)
Definition enqueued (w : world) (v : json) : world :=
  record (set_self w (set_queue (self w) (queue (self w) ++ [v]))) (EvPut v).

(** What the reader makes of one line (given without its line feed), when
    the line is valid UTF-8: the value to enqueue, or the text shown in the
    warning. *)
Definition decoded (l : bytes) : option (json + str) :=
  match utf8_decode (l ++ [10]) with
  | None => None
  | Some text =>
      match loads (strip text) with
      | Some v => Some (inl v)
      | None => Some (inr (strip text))
      end
  end.

(** A line the reader can take from the stream and decode as text: it has
    no line feed inside, is not longer than the limit, and is valid
    UTF-8. *)
Definition textual (l : bytes) : Prop :=
  Forall (fun c => c <> 10) l /\ blen l <= limit /\ decoded l <> None.

(** The stream content made of the lines [ls]. *)
Definition stream_of (ls : list bytes) : bytes :=
  List.concat (List.map (fun l => l ++ [10]) ls).

(** The values enqueued for the lines [ls], in order, and the warnings. *)
Fixpoint values_of (ls : list bytes) : list json :=
  match ls with
  | [] => []
  | l :: ls' =>
      match decoded l with
      | Some (inl v) => v :: values_of ls'
      | _ => values_of ls'
      end
  end.

Fixpoint warnings_of (ls : list bytes) : list log_record :=
  match ls with
  | [] => []
  | l :: ls' =>
      match decoded l with
      | Some (inr text) =>
          LogRecord WARNING (py "Invalid JSON data: " ++ text)
          :: warnings_of ls'
      | _ => warnings_of ls'
      end
  end.

(** Three lines from the child: [1], a line that is not UTF-8, [2]. *)
Definition garbled : world := feed_data [49; 10; 255; 10; 50; 10] started.

(** A started session whose event is set, and the same with the value [v]
    waiting in the queue. *)
Definition ready_session : world := readied started.

Definition answered (v : json) : world := enqueued ready_session v.

(** The error response [{"error": "X"}]. *)
Definition error_X : json := JObj [(py "error", JStr (py "X"))].

(** The lines [1], [not-json] and [2], received after the start. *)
Definition three_lines : list bytes := [[49]; py "not-json"; [50]].

Definition interleaved : world := feed_data (stream_of three_lines) started.

(** [_get_result] returns the queued value [v] as it is. *)
Definition returned_unchanged (v : json) : Prop :=
  exec _get_result (answered v) = Done v (dequeued (answered v) v []).

(** ** Vocabulary of the round trip through [json.dumps] and [json.loads] *)

(** Unicode scalar values: code points that are not surrogates. *)
Definition scalar (c : N) : Prop :=
  c < 0x110000 /\ ~ (0xD800 <= c <= 0xDFFF).

Definition scalar_text (s : str) : Prop := Forall scalar s.

(** The text after a value inside an array or an object, or at the end of
    the input: nothing, a comma or a closing bracket. *)
Definition delimited (rest : str) : Prop :=
  match rest with
  | [] => True
  | c :: _ => c = 44 \/ c = 93 \/ c = 125
  end.

(** The number of nodes of a value; enough fuel for [scan_once] on its
    serialization. *)
Fixpoint json_size (v : json) : nat :=
  match v with
  | JArr l =>
      S ((fix sizes (l : list json) : nat :=
            match l with
            | [] => O
            | x :: l' => S (json_size x + sizes l')
            end) l)
  | JObj d =>
      S ((fix sizes (d : list (str * json)) : nat :=
            match d with
            | [] => O
            | kv :: d' => S (json_size (snd kv) + sizes d')
            end) d)
  | _ => 1%nat
  end.

(** The values a Python program can hold and JSON can carry: strings and
    keys are made of Unicode scalar values, the keys of an object are
    distinct, and integers are within the interpreter's default limit of
    4300 digits for the conversion between [int] and [str]. *)
Fixpoint valid_json (v : json) : Prop :=
  match v with
  | JStr s => scalar_text s
  | JArr l =>
      (fix all (l : list json) : Prop :=
         match l with
         | [] => True
         | x :: l' => valid_json x /\ all l'
         end) l
  | JObj d =>
      NoDup (List.map fst d)
      /\ (fix all (d : list (str * json)) : Prop :=
            match d with
            | [] => True
            | kv :: d' => (scalar_text (fst kv) /\ valid_json (snd kv)) /\ all d'
            end) d
  | JNum n => (Z.abs n < 10 ^ 4300)%Z
  | _ => True
  end.

(** One [key: value] item of a serialized object. *)
Definition dumps_item (kv : str * json) : str :=
  encode_basestring_ascii (fst kv) ++ py ": " ++ dumps (snd kv).

(** What a serialization starts with: no white space, no closing
    bracket. *)
Definition opener (c : N) : Prop :=
  is_ws c = false /\ is_space c = false /\ (c =? 93) = false
  /\ (c =? 125) = false.

(** The scanner reads the serialization of [x] back, whatever follows it
    inside an array or an object. *)
Definition scans (x : json) : Prop :=
  forall (fuel : nat) (rest : str),
    (json_size x <= fuel)%nat -> delimited rest ->
    scan_once fuel (dumps x ++ rest) = Some (x, rest).

(** The fuel the loops of [JSONArray] and [JSONObject] need. *)
Fixpoint sizes (l : list json) : nat :=
  match l with
  | [] => O
  | x :: l' => S (json_size x + sizes l')
  end.

Fixpoint osizes (d : list (str * json)) : nat :=
  match d with
  | [] => O
  | kv :: d' => S (json_size (snd kv) + osizes d')
  end.

(** ASCII white space, as bytes: what [str.strip] removes around a line. *)
Definition blank (c : N) : Prop := c < 0x80 /\ is_space c = true.

(** ** Vocabulary of further properties *)

(** The world after [n] warnings about an empty line. *)
Fixpoint warned (n : nat) (w : world) : world :=
  match n with
  | O => w
  | S n' => warned n' (logged w WARNING (py "Invalid JSON data: "))
  end.

(** A line of [limit + 1] letters. *)
Definition long_line : bytes := repeat 97 (N.to_nat (limit + 1)).

(** [ensure_connected] from the point where it waits for the answer to its
    status request. *)
Definition ensure_connected_resume : coro unit :=
  status <- _get_result ;;
  await (LoggerSetDisabled false) ;;
  st <- subscript status (py "status") ;;
  if negb (truthy st) then connect ;; Ret tt else Ret tt.

(** The request each method writes for itself. *)
Definition request_of (m : rpc) : json :=
  match m with
  | Connect => command "connect"
  | Disconnect => command "disconnect"
  | Status => command "status"
  | GetModel => command "getModel"
  | GetPlatformInfo => command "getPlatformInfo"
  | BackupStorage => command "backupStorage"
  | InstallStorage storage =>
      JObj [(py "method", JStr (py "installStorage"));
            (py "args", JArr [storage])]
  end.

(** The methods that call [ensure_connected] first. *)
Definition needs_device (m : rpc) : bool :=
  match m with
  | Connect | Disconnect | Status => false
  | _ => true
  end.

(** The world after an optional record was handed to the logger. *)
Definition announced (o : option str) (w : world) : world :=
  match o with
  | Some t => logged w INFO t
  | None => w
  end.

(** A record of the calculator's storage, as [__main__] builds it, with a
    few more values. *)
Definition sample_record : json :=
  JObj [(py "name", JStr (py "Test"));
        (py "type", JStr (py "py"));
        (py "autoImport", JBool true);
        (py "code", JStr [112; 114; 105; 110; 116; 40; 34; 233; 0x1F600; 34; 41; 10]);
        (py "size", JNum (-42));
        (py "tags", JArr [JNull; JNum 0; JObj []; JArr []])].

(** The ready message of the child, and a queue in which a status answer
    precedes it. *)
Definition ready_message : json := JObj [(py "ready", JBool true)].

Definition early_answer : world :=
  set_self started
    (set_queue (self started)
       [JObj [(py "status", JBool false)]; ready_message; JNum 7]).

(** The line of [sample_record] as a child on Windows would echo it: a
    space before it, a carriage return after it. *)
Definition echoed : world :=
  feed_data (([32] ++ dumps sample_record ++ [13]) ++ [10]) started.

(** ** Vocabulary of whole sessions *)

(** A child that writes one line when it starts and one line for each
    request line: the serialization of [reply reqs], where [reqs] are the
    request lines received so far. *)
Definition answering (reply : list bytes -> json) (reqs : list bytes) : bytes :=
  dumps (reply reqs) ++ [10].

(** The pool once the three tasks of [start] have run for the first time
    and the ready message has been seen: the stderr sink and the reader
    wait for a line, the watcher has left its loop. *)
Definition idle_pool (p : nat) : list (task_name * task_state) :=
  [(RedirectStderr, Pending (_redirect_stderr_on p));
   (ReadTask, Pending (_read_on p));
   (WaitForReady, Exited)].

(** A running session whose background tasks all wait: the child [p] has
    been sent the request lines [reqs] and has reacted to its start and to
    the first [n - 1] of them, the streams are empty, the event is set and
    [q] is in the queue. *)
Definition settled (sys : system) (reqs : list bytes) (n : nat) (q : list json)
  : Prop :=
  let w := sworld sys in
  exists (p : nat) (x : StreamWriter),
    proc (self w) = Some p
    /\ writer (self w) = Some x /\ open x /\ sent x = stream_of reqs
    /\ Forall (Forall (fun c => c <> 10)) reqs
    /\ reader (self w) = Some (mkReader [] false)
    /\ stderr (self w) = Some (mkReader [] false)
    /\ ready (self w) = true
    /\ queue (self w) = q
    /\ List.length (tasks w) = 3%nat
    /\ pool sys = idle_pool p
    /\ child_id sys = p
    /\ served sys = n.

(** A session at rest between two calls: every request has been answered
    and every answer consumed. *)
Definition quiet (sys : system) (reqs : list bytes) : Prop :=
  settled sys reqs (S (List.length reqs)) [].

(** The request lines of one call: the methods that need the device ask
    for its status first. *)
Definition requests_of (m : rpc) : list bytes :=
  if needs_device m
  then [dumps (command "status"); dumps (request_of m)]
  else [dumps (request_of m)].

(** The calls [ms] made one after the other, each one awaited before the
    next is made; [f] receives their results. *)
Fixpoint calls_then {B : Type} (ms : list rpc) (f : list json -> coro B)
  : coro B :=
  match ms with
  | [] => f []
  | m :: ms' => r <- call m ;; calls_then ms' (fun rs => f (r :: rs))
  end.

Definition calls (ms : list rpc) : coro (list json) := calls_then ms Ret.

(** What the child answers to the last request of each of the calls [ms],
    [reqs] being the request lines it had received before. *)
Fixpoint replies (reply : list bytes -> json) (reqs : list bytes) (ms : list rpc)
  : list json :=
  match ms with
  | [] => []
  | m :: ms' =>
      reply (reqs ++ requests_of m) :: replies reply (reqs ++ requests_of m) ms'
  end.

(** The system before [start()]. *)
Definition boot : system := mkSystem fresh [] O O.

(** The number of rounds of the event loop the calls [ms] take: one for
    each request. *)
Definition rounds (ms : list rpc) : nat :=
  List.length (List.concat (List.map requests_of ms)).

(** What the theorems ask of the child: its first line is a ready
    message; every line it writes is the serialization of a valid value
    and fits the stream limit; it never answers with an error response;
    and it answers a status request with a truthy status. *)
Definition responsive (reply : list bytes -> json) : Prop :=
  (is_dict (reply []) = true /\ has_ready (reply []) = true)
  /\ (forall reqs, valid_json (reply reqs) /\ blen (dumps (reply reqs)) <= limit)
  /\ (forall reqs, reqs <> [] -> has_error (reply reqs) = false)
  /\ (forall reqs, exists st,
        status_of (reply (reqs ++ [dumps (command "status")])) = Some st
        /\ truthy st = true).

(** A whole session up to the results of the calls [ms]. *)
Definition session (ms : list rpc) : coro (list json) :=
  start ;; ensure_ready ;; calls ms.

(** A child that is ready at once, reports a connected device and numbers
    its first answers. *)
Definition demo_reply (reqs : list bytes) : json :=
  match reqs with
  | [] => ready_message
  | [_] => JObj [(py "status", JStr (py "connected")); (py "seq", JNum 1)]
  | [_; _] => JObj [(py "status", JBool true); (py "seq", JNum 2)]
  | _ => JObj [(py "status", JNum 1); (py "model", JStr (py "0110"))]
  end.

(** What the stderr sink makes of one line (given without its line feed):
    the stripped text, when the line is valid UTF-8. *)
Definition shown (l : bytes) : option str :=
  option_map strip (utf8_decode (l ++ [10])).

(** A line the sink can take from the stream and decode. *)
Definition legible (l : bytes) : Prop :=
  Forall (fun c => c <> 10) l /\ blen l <= limit /\ shown l <> None.

(** The records logged for the lines [ls]: one for each line that is not
    blank. *)
Fixpoint errors_of (ls : list bytes) : list log_record :=
  match ls with
  | [] => []
  | l :: ls' =>
      match shown l with
      | Some (c :: t) => LogRecord ERROR (c :: t) :: errors_of ls'
      | _ => errors_of ls'
      end
  end.

(** Three lines on the child's error stream: a message between spaces, a
    blank line, a message with an accent. *)
Definition complaints : list bytes :=
  [[32; 111; 111; 112; 115; 13]; [9]; [195; 169; 33]].

Definition complaining : world := feed_stderr (stream_of complaints) started.

(** A whole session ended by [stop()]. *)
Definition stopped_session (ms : list rpc) : coro (list json) :=
  start ;; ensure_ready ;; calls_then ms (fun rs => stop ;; Ret rs).

(** * Properties *)

Unset Implicit Arguments.

(** ** Running coroutines *)

Lemma exec_bind {A B : Type} (c : coro A) (f : A -> coro B) (w : world) :
  exec (bind c f) w =
  match exec c w with
  | Done a w' => exec (f a) w'
  | Failed e w' => Failed e w'
  | Blocked c' w' => Blocked (bind c' f) w'
  end.
Proof.
  revert w. induction c as [a | e | X e k IH]; intros w; simpl; try reflexivity.
  destruct (handle e w) as [ | x w' | ex w']; simpl; auto.
Qed.

Lemma has_error_lookup (d : list (str * json)) :
  has_error (JObj d) = true ->
  dict_lookup (py "error") d = Some (error_of (JObj d)).
Proof.
  unfold has_error, error_of, dict_get.
  destruct (dict_lookup (py "error") d); [reflexivity | discriminate].
Qed.

Lemma get_result_classified (w : world) (v : json) (q : list json) :
  queue (self w) = v :: q ->
  exec _get_result w =
  if has_error v then Failed (JavaScriptError (error_of v)) (dequeued w v q)
  else Done v (dequeued w v q).
Proof.
  intros Hq. unfold _get_result. simpl. rewrite Hq. fold (dequeued w v q).
  destruct v as [ | b | n | s | l | d]; simpl; try reflexivity.
  destruct (truthy (dict_get (py "error") (JBool false) d)) eqn:E; simpl; [|reflexivity].
  pose proof (has_error_lookup d E) as L. simpl in L. rewrite L. reflexivity.
Qed.

Lemma get_result_waits (w : world) :
  queue (self w) = [] -> exec _get_result w = Blocked _get_result w.
Proof. intros Hq. unfold _get_result. simpl. rewrite Hq. reflexivity. Qed.

Lemma handle_got {X} (e : effect X) (w : world) x w' :
  handle e w = Return x w' -> from_dequeue (got e x) w'.
Proof.
  destruct e; simpl; try exact (fun _ => I).
  destruct (queue (self w)) as [|v q] eqn:E; [discriminate|].
  intros H. injection H as <- <-. exists w, q. split; [exact E | reflexivity].
Qed.

Lemma handle_throw {X} (e : effect X) (w : world) ex w' :
  handle e w = Throw ex w' -> ex = AttributeError \/ ex = ValueError.
Proof.
  destruct e; simpl; unfold on_writer, on_attribute, on_readline;
    repeat match goal with
           | |- match ?t with _ => _ end = _ -> _ => destruct t
           | |- (if ?t then _ else _) = _ -> _ => destruct t
           end;
    intros H; try discriminate; injection H as <- <-; auto.
Qed.

Lemma attributed_exec {A} (R : option json -> A -> Prop) (c : coro A) :
  forall last w,
  attributed R last c -> from_dequeue last w ->
  match exec c w with
  | Done a w' => exists l, R l a /\ from_dequeue l w'
  | Failed (JavaScriptError e) w' =>
      exists v, has_error v = true /\ e = error_of v /\
      exists w1 q, queue (self w1) = v :: q /\ w' = dequeued w1 v q
  | Failed _ _ => True
  | Blocked c' _ => forall l, attributed R l c'
  end.
Proof.
  induction c as [a | e | X e k IH]; intros last w Ha Hw; simpl.
  - exists last. split; assumption.
  - destruct e; try exact I. destruct last as [v|]; [|contradiction].
    destruct Ha as [Hv ->]. exists v. repeat split; [exact Hv | exact Hw].
  - simpl in Ha. destruct (handle e w) as [ | x w' | ex w'] eqn:H.
    + intros l. exact Ha.
    + apply (IH x (got e x) w' (Ha x)). eapply handle_got; eassumption.
    + destruct (handle_throw e w ex w' H) as [-> | ->]; exact I.
Qed.

Lemma attributed_bind {A B} (R1 : option json -> A -> Prop)
  (R2 : option json -> B -> Prop) (c : coro A) (f : A -> coro B) :
  forall last,
  attributed R1 last c ->
  (forall a l, R1 l a -> attributed R2 l (f a)) ->
  attributed R2 last (bind c f).
Proof.
  induction c as [a | e | X e k IH]; intros last Hc Hf; simpl.
  - apply Hf. exact Hc.
  - exact Hc.
  - intros x. apply IH; [apply Hc | exact Hf].
Qed.

Lemma attributed_await {X} (e : effect X) l : attributed anything l (await e).
Proof. intros x. exact I. Qed.

Lemma attributed_write data l : attributed anything l (_write data).
Proof.
  unfold _write. destruct (utf8_encode (dumps data)); [|exact I].
  repeat (apply attributed_bind with (R1 := anything); [apply attributed_await | intros [] ? _]).
  apply attributed_await.
Qed.

Lemma answers_get_result : forall l, answers l _get_result.
Proof.
  intros l v. simpl.
  destruct v as [ | b | n | s | items | d]; simpl; try (split; reflexivity).
  destruct (truthy (dict_get (py "error") (JBool false) d)) eqn:E.
  - rewrite (has_error_lookup d E). simpl. split; [exact E | reflexivity].
  - simpl. split; [reflexivity | exact E].
Qed.

Ltac prefix_then :=
  lazymatch goal with
  | |- attributed _ _ (bind (await _) _) =>
      apply attributed_bind with (R1 := anything);
      [ apply attributed_await | intros ? ? _ ]
  | |- attributed _ _ (bind (_write _) _) =>
      apply attributed_bind with (R1 := anything);
      [ apply attributed_write | intros ? ? _ ]
  | |- attributed _ _ (bind ensure_ready _) =>
      apply attributed_bind with (R1 := anything);
      [ apply attributed_await | intros ? ? _ ]
  | |- answers _ (bind (await _) _) =>
      apply attributed_bind with (R1 := anything);
      [ apply attributed_await | intros ? ? _ ]
  | |- answers _ (bind (_write _) _) =>
      apply attributed_bind with (R1 := anything);
      [ apply attributed_write | intros ? ? _ ]
  | |- answers _ (bind ensure_ready _) =>
      apply attributed_bind with (R1 := anything);
      [ apply attributed_await | intros ? ? _ ]
  end.

Lemma answers_connect l : answers l connect.
Proof. unfold connect. repeat prefix_then. apply answers_get_result. Qed.
Lemma answers_disconnect l : answers l disconnect.
Proof. unfold disconnect. repeat prefix_then. apply answers_get_result. Qed.
Lemma answers_status l : answers l status.
Proof. unfold status. repeat prefix_then. apply answers_get_result. Qed.

Lemma attributed_subscript v key l : attributed anything l (subscript v key).
Proof. unfold subscript. destruct v; simpl; try exact I. destruct (dict_lookup key fields); exact I. Qed.

Lemma attributed_ensure_connected l : attributed anything l ensure_connected.
Proof.
  unfold ensure_connected. repeat prefix_then.
  apply attributed_bind with (R1 := returns_dequeued);
    [apply answers_status | intros st ? _].
  prefix_then.
  apply attributed_bind with (R1 := anything);
    [apply attributed_subscript | intros x ? _].
  destruct (negb (truthy x)); [|exact I].
  apply attributed_bind with (R1 := returns_dequeued);
    [apply answers_connect | intros; exact I].
Qed.

Lemma answers_call (m : rpc) l : answers l (call m).
Proof.
  destruct m; cbn [call];
    [ apply answers_connect | apply answers_disconnect | apply answers_status
    | .. ];
    unfold get_model, get_platform_info, backup_storage, install_storage;
    repeat lazymatch goal with
      | |- answers _ (bind ensure_connected _) =>
          apply attributed_bind with (R1 := anything);
          [ apply attributed_ensure_connected | intros ? ? _ ]
      | |- attributed _ _ (bind ensure_connected _) =>
          apply attributed_bind with (R1 := anything);
          [ apply attributed_ensure_connected | intros ? ? _ ]
      | _ => prefix_then
      end;
    apply answers_get_result.
Qed.

Lemma stage_answers (m : rpc) (c : coro json) :
  stage_of (call m) c -> forall l, answers l c.
Proof.
  induction 1 as [ | c1 w c2 w' _ IH E].
  - intros l. apply answers_call.
  - pose proof (attributed_exec returns_dequeued c1 None w (IH None) I) as H.
    rewrite E in H. exact H.
Qed.

(** ** The event is touched by [_wait_for_ready] and [stop] only *)

Lemma handle_ready {X} (e : effect X) (w : world) :
  match e with EventSet => False | EventClear => False | _ => True end ->
  match handle e w with
  | Suspend => True
  | Return _ w' => ready (self w') = ready (self w)
  | Throw _ w' => ready (self w') = ready (self w)
  end.
Proof.
  destruct e; simpl; try contradiction; intros _;
    unfold on_writer, on_attribute, on_readline;
    repeat match goal with
           | |- context [match queue ?o with _ => _ end] => destruct (queue o)
           | |- context [match writer ?o with _ => _ end] => destruct (writer o)
           | |- context [match proc ?o with _ => _ end] => destruct (proc o)
           | |- context [match reader ?o with _ => _ end] => destruct (reader o)
           | |- context [match stderr ?o with _ => _ end] => destruct (stderr o)
           | |- context [match readline ?r with _ => _ end] => destruct (readline r)
           | |- context [if ?b then _ else _] => destruct b eqn:?
           end; simpl; try reflexivity; try congruence; exact I.
Qed.

Lemma gate_free_exec {A} (c : coro A) : forall w,
  gate_free c ->
  ready (self (world_of (exec c w))) = ready (self w) /\
  match exec c w with Blocked c' _ => gate_free c' | _ => True end.
Proof.
  induction c as [a | e | X e k IH]; intros w G; simpl; auto.
  destruct G as [Ge Gk]. pose proof (handle_ready e w Ge) as H.
  destruct (handle e w) as [ | x w' | ex w']; simpl.
  - split; [reflexivity | split; assumption].
  - destruct (IH x w' (Gk x)) as [R B]. split; [congruence | exact B].
  - auto.
Qed.

Lemma gate_free_bind {A B} (c : coro A) (f : A -> coro B) :
  gate_free c -> (forall a, gate_free (f a)) -> gate_free (bind c f).
Proof.
  induction c as [a | e | X e k IH]; intros Gc Gf; simpl; auto.
  destruct Gc as [Ge Gk]. split; [exact Ge | intros x; apply IH; auto].
Qed.

Ltac gate_free_tac :=
  repeat first
    [ exact I
    | apply gate_free_bind
    | match goal with
      | |- forall _, _ => intro
      | |- _ /\ _ => split
      | |- gate_free (match ?t with _ => _ end) => destruct t
      | |- gate_free (if ?t then _ else _) => destruct t
      end
    | progress simpl ].

Lemma gate_free_write data : gate_free (_write data).
Proof. unfold _write. gate_free_tac. Qed.
Lemma gate_free_get_result : gate_free _get_result.
Proof. unfold _get_result, subscript. gate_free_tac. Qed.

Lemma gate_free_ensure_ready : gate_free ensure_ready.
Proof. unfold ensure_ready. gate_free_tac. Qed.

Ltac gate_free_call :=
  repeat lazymatch goal with
    | |- True => exact I
    | |- forall _, _ => intro
    | |- _ /\ _ => split
    | |- gate_free (_write _) => apply gate_free_write
    | |- gate_free _get_result => apply gate_free_get_result
    | |- gate_free ensure_ready => apply gate_free_ensure_ready
    | |- gate_free (bind _ _) => apply gate_free_bind
    | |- gate_free (await _) => simpl
    | |- gate_free (Ret _) => exact I
    | |- gate_free (Raise _) => exact I
    | |- gate_free (match ?t with _ => _ end) => destruct t
    | |- gate_free (if ?t then _ else _) => destruct t
    end.

Lemma gate_free_connect : gate_free connect.
Proof. unfold connect. gate_free_call. Qed.
Lemma gate_free_disconnect : gate_free disconnect.
Proof. unfold disconnect. gate_free_call. Qed.
Lemma gate_free_status : gate_free status.
Proof. unfold status. gate_free_call. Qed.
Lemma gate_free_subscript v key : gate_free (subscript v key).
Proof. unfold subscript. gate_free_call. Qed.
Lemma gate_free_ensure_connected : gate_free ensure_connected.
Proof.
  unfold ensure_connected.
  repeat lazymatch goal with
    | |- gate_free status => apply gate_free_status
    | |- gate_free connect => apply gate_free_connect
    | |- gate_free (subscript _ _) => apply gate_free_subscript
    | _ => progress gate_free_call
    end.
Qed.
Lemma gate_free_call_all (m : rpc) : gate_free (call m).
Proof.
  destruct m; cbn [call];
    [ apply gate_free_connect | apply gate_free_disconnect
    | apply gate_free_status | .. ];
    unfold get_model, get_platform_info, backup_storage, install_storage;
    repeat lazymatch goal with
      | |- gate_free ensure_connected => apply gate_free_ensure_connected
      | _ => progress gate_free_call
      end.
Qed.
Lemma gate_free_read : gate_free _read.
Proof. unfold _read, _read_on. gate_free_call. Qed.
Lemma gate_free_redirect_stderr : gate_free _redirect_stderr.
Proof. unfold _redirect_stderr, _redirect_stderr_on. gate_free_call. Qed.
Lemma gate_free_start : gate_free start.
Proof. unfold start. gate_free_call. Qed.

Lemma stage_gate_free {A} (c c' : coro A) :
  gate_free c -> stage_of c c' -> gate_free c'.
Proof.
  intros G. induction 1 as [ | c1 w c2 w' _ IH E]; [exact G|].
  pose proof (proj2 (gate_free_exec c1 w IH)) as H. rewrite E in H. exact H.
Qed.


(** ** What [json.dumps] writes is printable ASCII *)

Lemma land_15 (a : N) : N.land a 0xF < 16.
Proof.
  change 0xF with (N.ones 4). rewrite N.land_ones. apply N.mod_lt. discriminate.
Qed.

Lemma hex_digit_printable (d : N) : d < 16 -> printable (hex_digit d).
Proof.
  unfold hex_digit, printable. intros H. destruct (N.ltb_spec d 10); lia.
Qed.

Lemma hex4_ascii (c : N) : ascii_text (hex4 c).
Proof.
  unfold hex4. repeat constructor; apply hex_digit_printable; apply land_15.
Qed.

Lemma ascii_app (a b : str) : ascii_text a -> ascii_text b -> ascii_text (a ++ b).
Proof. intros; apply Forall_app; split; assumption. Qed.

Lemma ascii_py_lit (s : str) : forallb (in_range 32 126) s = true -> ascii_text s.
Proof.
  intros H. apply Forall_forall. intros c Hc.
  rewrite forallb_forall in H. specialize (H c Hc). unfold in_range in H.
  apply andb_true_iff in H. destruct H as [A B].
  apply N.leb_le in A. apply N.leb_le in B. split; assumption.
Qed.

Lemma escape_char_ascii (c : N) : ascii_text (escape_char c).
Proof.
  unfold escape_char.
  repeat match goal with
         | |- ascii_text (if ?b then _ else _) => destruct b eqn:?
         end;
    try (apply ascii_py_lit; reflexivity).
  - constructor; [|constructor]. unfold in_range in *.
    apply andb_true_iff in Heqb6. destruct Heqb6 as [A B].
    apply N.leb_le in A. apply N.leb_le in B. split; assumption.
  - repeat (constructor; [unfold printable; lia|]). apply hex4_ascii.
  - cbv zeta. apply ascii_app; repeat (constructor; [unfold printable; lia|]); apply hex4_ascii.
Qed.

Lemma encode_basestring_ascii_ascii (s : str) : ascii_text (encode_basestring_ascii s).
Proof.
  unfold encode_basestring_ascii. constructor; [unfold printable; lia|].
  apply ascii_app; [| repeat constructor; unfold printable; lia].
  induction s as [|c s IH]; simpl; [constructor|].
  apply ascii_app; [apply escape_char_ascii | exact IH].
Qed.

Lemma uint_chars_ascii (d : Decimal.uint) : ascii_text (uint_chars d).
Proof. induction d; simpl; constructor; try assumption; unfold printable; lia. Qed.

Lemma int_repr_ascii (n : Z) : ascii_text (int_repr n).
Proof.
  unfold int_repr. destruct (Z.to_int n).
  - apply uint_chars_ascii.
  - constructor; [unfold printable; lia | apply uint_chars_ascii].
Qed.

Lemma join_ascii (sep : str) (parts : list str) :
  ascii_text sep -> Forall ascii_text parts -> ascii_text (join sep parts).
Proof.
  intros Hs H. induction H as [|p ps Hp Hps IH]; simpl; [constructor|].
  destruct ps as [|p' ps']; [exact Hp|].
  apply ascii_app; [exact Hp | apply ascii_app; [exact Hs | exact IH]].
Qed.

Lemma dumps_ascii (v : json) : ascii_text (dumps v).
Proof.
  induction v as [ | b | n | s | l IH | d IH] using json_induction;
    cbn [dumps].
  - apply ascii_py_lit; reflexivity.
  - destruct b; apply ascii_py_lit; reflexivity.
  - apply int_repr_ascii.
  - apply encode_basestring_ascii_ascii.
  - constructor; [unfold printable; lia|].
    apply ascii_app; [| repeat constructor; unfold printable; lia].
    apply join_ascii; [apply ascii_py_lit; reflexivity|].
    apply Forall_forall. intros p Hp. apply in_map_iff in Hp.
    destruct Hp as [x [<- Hin]]. rewrite Forall_forall in IH. exact (IH x Hin).
  - constructor; [unfold printable; lia|].
    apply ascii_app; [| repeat constructor; unfold printable; lia].
    apply join_ascii; [apply ascii_py_lit; reflexivity|].
    apply Forall_forall. intros p Hp. apply in_map_iff in Hp.
    destruct Hp as [kv [<- Hin]]. rewrite Forall_forall in IH.
    apply ascii_app; [apply encode_basestring_ascii_ascii|].
    apply ascii_app; [apply ascii_py_lit; reflexivity | exact (IH kv Hin)].
Qed.

Lemma utf8_encode_ascii (s : str) : ascii_text s -> utf8_encode s = Some s.
Proof.
  induction 1 as [|c s Hc _ IH]; simpl; [reflexivity|].
  unfold printable in Hc. destruct (N.ltb_spec c 0x80); [|lia].
  rewrite IH. reflexivity.
Qed.

Lemma utf8_decode_ascii (s : bytes) : ascii_text s -> utf8_decode s = Some s.
Proof.
  induction 1 as [|c s Hc _ IH]; simpl; [reflexivity|].
  unfold printable in Hc. destruct (N.ltb_spec c 0x80); [|lia].
  rewrite IH. reflexivity.
Qed.

Lemma split_line_ascii (s rest : bytes) :
  ascii_text s -> split_line (s ++ 10 :: rest) = Some (s, rest).
Proof.
  induction 1 as [|c s Hc _ IH]; simpl; [reflexivity|].
  unfold printable in Hc. destruct (N.eqb_spec c 10); [lia|].
  rewrite IH. reflexivity.
Qed.

(** ** Requests and their answers *)

Lemma exec_await {X} (e : effect X) (w : world) :
  exec (await e) w =
  match handle e w with
  | Suspend => Blocked (await e) w
  | Return x w' => Done x w'
  | Throw ex w' => Failed ex w'
  end.
Proof. unfold await. cbn [exec]. destruct (handle e w); reflexivity. Qed.

Lemma exec_log (l : level) (m : str) (w : world) :
  exec (await (Log l m)) w = Done tt (logged w l m).
Proof.
  rewrite exec_await. unfold logged. cbn [handle].
  destruct w as [o ld lg sp tk tr]; cbn. destruct ld; reflexivity.
Qed.

Lemma exec_ensure_ready (w : world) :
  exec ensure_ready w =
  if ready (self w) then Done tt w else Blocked ensure_ready w.
Proof.
  unfold ensure_ready. rewrite exec_await. cbn [handle].
  destruct (ready (self w)); reflexivity.
Qed.

Lemma exec_write (w : world) (x : StreamWriter) (cmd : json) :
  writer (self w) = Some x -> open x ->
  exec (_write cmd) w = Done tt (requested w x cmd).
Proof.
  intros Hw [He Hc]. unfold _write.
  rewrite (utf8_encode_ascii _ (dumps_ascii cmd)).
  destruct w as [[p wr rd er rdy qu] ld lg sp tk tr]. cbn in Hw. subst wr.
  destruct x as [snt e c]. cbn in He, Hc. subst e c.
  cbn. unfold requested, set_self, record, set_writer. cbn.
  rewrite <- !app_assoc. reflexivity.
Qed.

Lemma logged_self w l m : self (logged w l m) = self w.
Proof. unfold logged. destruct (logger_disabled w); reflexivity. Qed.

Lemma simple_call_sends (name text : string) (w : world) (x : StreamWriter) :
  ready (self w) = true -> writer (self w) = Some x -> open x ->
  queue (self w) = [] ->
  exec (await (Log INFO (py text)) ;; ensure_ready ;;
        _write (command name) ;; _get_result) w
  = Blocked _get_result (requested (logged w INFO (py text)) x (command name)).
Proof.
  intros Hr Hw Ho Hq.
  rewrite exec_bind, exec_log, exec_bind, exec_ensure_ready, logged_self, Hr.
  rewrite exec_bind, (exec_write _ x); [| rewrite logged_self; assumption | assumption].
  apply get_result_waits. unfold requested. cbn. rewrite logged_self. exact Hq.
Qed.

Lemma connect_sends (w : world) (x : StreamWriter) :
  ready (self w) = true -> writer (self w) = Some x -> open x ->
  queue (self w) = [] ->
  exec connect w
  = Blocked _get_result
      (requested (logged w INFO (py "Connecting to the NumWorks")) x
                 (command "connect")).
Proof. apply (simple_call_sends "connect" "Connecting to the NumWorks"). Qed.

Lemma disconnect_sends (w : world) (x : StreamWriter) :
  ready (self w) = true -> writer (self w) = Some x -> open x ->
  queue (self w) = [] ->
  exec disconnect w
  = Blocked _get_result
      (requested (logged w INFO (py "Disconnecting from the NumWorks")) x
                 (command "disconnect")).
Proof. apply (simple_call_sends "disconnect" "Disconnecting from the NumWorks"). Qed.

Lemma status_sends (w : world) (x : StreamWriter) :
  ready (self w) = true -> writer (self w) = Some x -> open x ->
  queue (self w) = [] ->
  exec status w
  = Blocked _get_result
      (requested (logged w INFO (py "Getting the status of the NumWorks")) x
                 (command "status")).
Proof. apply (simple_call_sends "status" "Getting the status of the NumWorks"). Qed.

Lemma exec_stop_tail (w : world) (x : StreamWriter) :
  writer (self w) = Some x ->
  exec (await WriterWriteEof ;; await WriterClose ;; await EventClear) w
  = Done tt
      (mkWorld (mkNumWorks (proc (self w)) (Some (mkWriter (sent x) true true))
                           (reader (self w)) (stderr (self w)) false
                           (queue (self w)))
               (logger_disabled w) (log w) (spawned w) (tasks w)
               (trace w ++ [EvWriteEof; EvClose; EvClear])).
Proof.
  intros Hw. destruct w as [[p wr rd er rdy qu] ld lg sp tk tr]. cbn in Hw. subst wr.
  destruct x as [snt e c].
  cbn. unfold set_self, record, set_writer. cbn. rewrite <- !app_assoc. reflexivity.
Qed.

(** C7: [stop()] first performs [disconnect()]: the request is written and
    [stop] waits for the answer.  An error answer makes [stop] fail with
    that error, and nothing else is done.  Any other answer is followed, in
    this order, by [write_eof()], [close()] and the clearing of the event,
    after which [stop] returns at once: there is no wait for the child
    process, whose handle is left as it is. *)
Theorem stop_sequence (w : world) (x : StreamWriter) :
  ready (self w) = true -> writer (self w) = Some x -> open x ->
  queue (self w) = [] ->
  exists k,
    exec stop w
    = Blocked k
        (requested
           (logged (logged w INFO (py "Stopping NumWorks object"))
                   INFO (py "Disconnecting from the NumWorks"))
           x (command "disconnect"))
    /\ forall (w2 : world) (v : json) (q : list json) (x2 : StreamWriter),
         queue (self w2) = v :: q -> writer (self w2) = Some x2 ->
         exec k w2
         = if has_error v
           then Failed (JavaScriptError (error_of v)) (dequeued w2 v q)
           else Done tt (stopped w2 v q x2).
Proof.
  intros Hr Hw Ho Hq. eexists. split.
  - unfold stop. rewrite exec_bind, exec_log, exec_bind.
    rewrite (disconnect_sends _ x); try rewrite logged_self; try assumption.
    reflexivity.
  - intros w2 v q x2 Hq2 Hw2.
    rewrite exec_bind, (get_result_classified w2 v q Hq2).
    destruct (has_error v); [reflexivity|].
    rewrite (exec_stop_tail _ x2).
    + unfold stopped, dequeued, record, set_self, set_queue. cbn.
      rewrite <- app_assoc. reflexivity.
    + unfold dequeued, record, set_self, set_queue. cbn. exact Hw2.
Qed.

(** C3: [ensure_connected] waits while the event is not set.  Once it is
    set it writes exactly one [status] request, with logging disabled.  When
    the answer is an object with a [status] key: an error answer makes it
    fail with that error and no further request; a truthy status makes it
    return with no further request; a falsy status makes it write exactly
    one [connect] request, whose answer either makes it fail with that
    error or lets it return.  Nothing is retried. *)
Theorem ensure_connected_reconciles :
  (forall w : world,
     ready (self w) = false ->
     exec ensure_connected w = Blocked ensure_connected w)
  /\
  (forall (w : world) (x : StreamWriter),
     ready (self w) = true -> writer (self w) = Some x -> open x ->
     queue (self w) = [] ->
     exists k1,
       exec ensure_connected w
       = Blocked k1 (requested (set_logger_disabled w true) x (command "status"))
       /\ forall (w2 : world) (v st : json) (q : list json) (x2 : StreamWriter),
            queue (self w2) = v :: q -> status_of v = Some st ->
            ready (self w2) = true -> writer (self w2) = Some x2 -> open x2 ->
            let w3 := set_logger_disabled (dequeued w2 v q) false in
            if has_error v
            then exec k1 w2
                 = Failed (JavaScriptError (error_of v)) (dequeued w2 v q)
            else if truthy st
            then exec k1 w2 = Done tt w3
            else q = [] ->
                 exists k2,
                   exec k1 w2
                   = Blocked k2
                       (requested
                          (logged w3 INFO (py "Connecting to the NumWorks"))
                          x2 (command "connect"))
                   /\ forall (w4 : world) (v' : json) (q' : list json),
                        queue (self w4) = v' :: q' ->
                        exec k2 w4
                        = if has_error v'
                          then Failed (JavaScriptError (error_of v'))
                                      (dequeued w4 v' q')
                          else Done tt (dequeued w4 v' q')).
Proof.
  split.
  - intros w Hr. unfold ensure_connected at 1.
    rewrite exec_bind, exec_ensure_ready, Hr. reflexivity.
  - intros w x Hr Hw Ho Hq. eexists. split.
    + unfold ensure_connected. rewrite exec_bind, exec_ensure_ready, Hr.
      rewrite exec_bind, exec_await. cbn [handle].
      fold (set_logger_disabled w true). rewrite exec_bind.
      rewrite (status_sends _ x); try assumption.
      reflexivity.
    + intros w2 v st q x2 Hq2 Hst Hr2 Hw2 Ho2 w3.
      rewrite exec_bind, (get_result_classified w2 v q Hq2).
      destruct (has_error v); [reflexivity|].
      rewrite exec_bind, exec_await. cbn [handle].
      fold (set_logger_disabled (dequeued w2 v q) false). fold w3.
      destruct v as [ | | | | | d]; try discriminate. unfold status_of in Hst.
      rewrite exec_bind. unfold subscript. rewrite Hst. cbn [exec].
      destruct (truthy st); cbn [negb]; [reflexivity|].
      intros ->. eexists. split.
      * rewrite exec_bind. rewrite (connect_sends _ x2); try assumption;
          [ reflexivity | .. ];
          unfold w3, dequeued, record, set_self, set_queue; cbn;
          first [ assumption | reflexivity ].
      * intros w4 v' q' Hq4. rewrite exec_bind, (get_result_classified w4 v' q' Hq4).
        destruct (has_error v'); reflexivity.
Qed.

(** ** The readiness watcher *)

Lemma exec_wait_for_ready (w : world) (v : json) (q : list json) :
  queue (self w) = v :: q ->
  exec _wait_for_ready w =
  if is_dict v
  then if has_ready v
       then Done Break (readied (dequeued w v q))
       else Done Continue (dequeued w v q)
  else Failed AttributeError (dequeued w v q).
Proof.
  intros Hq. unfold _wait_for_ready. rewrite exec_bind, exec_await.
  cbn [handle]. rewrite Hq. fold (dequeued w v q).
  destruct v as [ | b | n | s | l | d]; cbn [is_dict has_ready exec]; try reflexivity.
  destruct (truthy (dict_get (py "ready") (JBool false) d)); [|reflexivity].
  rewrite exec_bind, exec_await. reflexivity.
Qed.

Lemma exec_wait_for_ready_empty (w : world) :
  queue (self w) = [] ->
  exec _wait_for_ready w = Blocked _wait_for_ready w.
Proof.
  intros Hq. unfold _wait_for_ready. rewrite exec_bind, exec_await.
  cbn [handle]. rewrite Hq. reflexivity.
Qed.

Lemma dequeue_all_app (vs us : list json) : forall w,
  dequeue_all w (vs ++ us) = dequeue_all (dequeue_all w vs) us.
Proof. induction vs as [|v vs IH]; intros w; cbn; [reflexivity | apply IH]. Qed.

Lemma dequeue_all_ready (vs : list json) : forall w,
  ready (self (dequeue_all w vs)) = ready (self w).
Proof.
  induction vs as [|v vs IH]; intros w; cbn [dequeue_all]; [reflexivity|].
  rewrite IH. reflexivity.
Qed.

Lemma dequeue_all_queue (vs : list json) : forall w rest,
  queue (self w) = vs ++ rest -> queue (self (dequeue_all w vs)) = rest.
Proof.
  induction vs as [|v vs IH]; intros w rest Hq; cbn [dequeue_all]; [exact Hq|].
  apply IH. rewrite Hq. reflexivity.
Qed.

Lemma watcher_skips (pre : list json) : forall (w : world) (rest : list json) (n : nat),
  Forall (fun u => is_dict u = true /\ has_ready u = false) pre ->
  queue (self w) = pre ++ rest ->
  run_loop (List.length pre + n) _wait_for_ready _wait_for_ready w
  = run_loop n _wait_for_ready _wait_for_ready (dequeue_all w pre).
Proof.
  induction pre as [|u pre IH]; intros w rest n HF Hq; [reflexivity|].
  inversion HF as [|? ? [Hd Hr] HF']; subst.
  cbn [List.length Nat.add run_loop dequeue_all].
  rewrite (exec_wait_for_ready w u (pre ++ rest) Hq), Hd, Hr.
  rewrite Hq. cbn [tl]. apply (IH _ rest); [exact HF' | reflexivity].
Qed.

(** ** Coroutines that leave the event alone *)

Lemma session_step_ready (w w' : world) :
  session_step w w' -> ready (self w') = ready (self w).
Proof.
  destruct 1 as [A c w G | data w | w | data w | w].
  - apply gate_free_exec. exact G.
  - unfold feed_data. destruct (reader (self w)); reflexivity.
  - unfold feed_eof. destruct (reader (self w)); reflexivity.
  - unfold feed_stderr. destruct (stderr (self w)); reflexivity.
  - unfold feed_stderr_eof. destruct (stderr (self w)); reflexivity.
Qed.

Lemma evolves_ready (w w' : world) :
  evolves w w' -> ready (self w') = ready (self w).
Proof.
  induction 1 as [|w1 w2 w3 _ IH S]; [reflexivity|].
  rewrite (session_step_ready _ _ S). exact IH.
Qed.

(** C9: when a value that is not an object reaches the watcher before any
    ready message (the values before it being objects without a truthy
    [ready] field), the lookup raises [AttributeError] and the watcher task
    ends with it, having consumed the queue up to and including that value.
    The event is left as it was, and nothing that can happen afterwards
    changes it: if it was not set, every later [ensure_ready] waits. *)
Theorem watcher_dies_on_non_object
  (w : world) (pre : list json) (v : json) (post : list json) (n : nat) :
  Forall (fun u => is_dict u = true /\ has_ready u = false) pre ->
  is_dict v = false ->
  queue (self w) = pre ++ v :: post ->
  (List.length pre < n)%nat ->
  let w' := dequeue_all w (pre ++ [v]) in
  run_loop n _wait_for_ready _wait_for_ready w = LoopFailed AttributeError w'
  /\ queue (self w') = post
  /\ ready (self w') = ready (self w)
  /\ (forall w'', evolves w' w'' -> ready (self w'') = ready (self w))
  /\ (ready (self w) = false ->
      forall w'', evolves w' w'' ->
      exec ensure_ready w'' = Blocked ensure_ready w'').
Proof.
  intros HF Hv Hq Hn w'.
  assert (He : forall w'', evolves w' w'' -> ready (self w'') = ready (self w))
    by (intros w'' E; rewrite (evolves_ready _ _ E); apply dequeue_all_ready).
  assert (Hq' : queue (self (dequeue_all w pre)) = v :: post)
    by (apply dequeue_all_queue; exact Hq).
  repeat split.
  - replace n with (List.length pre + S (n - S (List.length pre)))%nat by lia.
    rewrite (watcher_skips pre w (v :: post) _ HF Hq).
    cbn [run_loop]. rewrite (exec_wait_for_ready _ v post Hq'), Hv.
    unfold w'. rewrite dequeue_all_app. cbn [dequeue_all].
    rewrite Hq'. reflexivity.
  - unfold w'. apply dequeue_all_queue. rewrite Hq, <- app_assoc. reflexivity.
  - unfold w'. apply dequeue_all_ready.
  - exact He.
  - intros Hr w'' E. rewrite exec_ensure_ready, (He w'' E), Hr. reflexivity.
Qed.

(** ** [stop] clears the event *)

Lemma ends_cleared_exec (c : coro unit) : forall (b : bool) (w : world),
  ends_cleared b c -> (b = true -> ready (self w) = false) ->
  match exec c w with
  | Done _ w' => ready (self w') = false
  | Failed _ _ => True
  | Blocked c' _ => forall b', ends_cleared b' c'
  end.
Proof.
  induction c as [a | e | X e k IH]; intros b w Hc Hw; cbn [exec].
  - apply Hw. exact Hc.
  - exact I.
  - cbn [ends_cleared] in Hc.
    destruct (handle e w) as [ | x w' | ex w'] eqn:H.
    + intros b'. exact Hc.
    + apply (IH x (is_clear e) w' (Hc x)). intros Hcl.
      destruct e; try discriminate Hcl. cbn in H. injection H as _ <-. reflexivity.
    + exact I.
Qed.

Lemma ends_cleared_bind {A} (c : coro A) (f : A -> coro unit) :
  (forall a b, ends_cleared b (f a)) -> forall b, ends_cleared b (bind c f).
Proof.
  intros Hf. induction c as [a | e | X e k IH]; intros b; cbn [bind ends_cleared].
  - apply Hf.
  - exact I.
  - intros x. apply IH.
Qed.

Lemma ends_cleared_stop (b : bool) : ends_cleared b stop.
Proof.
  unfold stop. apply ends_cleared_bind. intros _ b1.
  apply ends_cleared_bind. intros _ b2.
  cbn. intros _ _ _. reflexivity.
Qed.

Lemma stage_ends_cleared (c : coro unit) :
  stage_of stop c -> forall b, ends_cleared b c.
Proof.
  induction 1 as [ | c1 w c2 w' _ IH E]; [apply ends_cleared_stop|].
  pose proof (ends_cleared_exec c1 false w (IH false)) as H.
  rewrite E in H. apply H. discriminate.
Qed.

(** C4: the watcher sets the event exactly when it dequeues an object with a
    truthy [ready] field, and then leaves its loop, so that the rest of the
    queue stays where it is; an object without one leaves the event alone.
    [ensure_ready] returns at once when the event is set and waits
    otherwise.  Nothing that happens apart from the watcher and [stop]
    changes the event: none of the RPC methods, [ensure_connected],
    [ensure_ready], [start], the reader and the stderr sink touches it.
    [stop], whenever it returns, leaves the event cleared, and since [start]
    does not touch it, [ensure_ready] waits after a restart until the new
    watcher has seen a ready message. *)
Theorem readiness_gate :
  (forall (w : world) (v : json) (q : list json) (n : nat),
     queue (self w) = v :: q -> is_dict v = true ->
     if has_ready v
     then run_loop (S n) _wait_for_ready _wait_for_ready w
          = LoopExit (readied (dequeued w v q))
          /\ ready (self (readied (dequeued w v q))) = true
          /\ queue (self (readied (dequeued w v q))) = q
     else exec _wait_for_ready w = Done Continue (dequeued w v q)
          /\ ready (self (dequeued w v q)) = ready (self w))
  /\ (forall w : world,
        exec ensure_ready w
        = if ready (self w) then Done tt w else Blocked ensure_ready w)
  /\ (forall w w' : world, evolves w w' -> ready (self w') = ready (self w))
  /\ ((forall m, gate_free (call m)) /\ gate_free ensure_connected
       /\ gate_free ensure_ready /\ gate_free start
       /\ gate_free _read /\ gate_free _redirect_stderr)
  /\ (forall (c : coro unit) (w w' : world),
        stage_of stop c -> exec c w = Done tt w' -> ready (self w') = false).
Proof.
  split; [|split; [|split; [|split]]].
  - intros w v q n Hq Hd. destruct (has_ready v) eqn:Hr.
    + cbn [run_loop]. rewrite (exec_wait_for_ready w v q Hq), Hd, Hr.
      split; [reflexivity | split; reflexivity].
    + rewrite (exec_wait_for_ready w v q Hq), Hd, Hr. split; reflexivity.
  - exact exec_ensure_ready.
  - exact evolves_ready.
  - exact (conj gate_free_call_all
            (conj gate_free_ensure_connected
               (conj gate_free_ensure_ready
                  (conj gate_free_start
                     (conj gate_free_read gate_free_redirect_stderr))))).
  - intros c w w' St E.
    pose proof (ends_cleared_exec c false w (stage_ends_cleared c St false)) as H.
    rewrite E in H. apply H. discriminate.
Qed.

(** ** Loops without an exit *)

Lemma never_breaks_exec (c : coro ctl) : forall w,
  never_breaks c ->
  match exec c w with
  | Done Break _ => False
  | Blocked c' _ => never_breaks c'
  | _ => True
  end.
Proof.
  induction c as [a | e | X e k IH]; intros w H; cbn [exec].
  - destruct a; [exact I | exact H].
  - exact I.
  - destruct (handle e w) as [ | x w' | ex w']; [exact H | | exact I].
    apply IH. apply H.
Qed.

Lemma never_breaks_loop (body : coro ctl) (n : nat) : forall cur w,
  never_breaks body -> never_breaks cur ->
  forall w', run_loop n body cur w <> LoopExit w'.
Proof.
  induction n as [|n IH]; intros cur w Hb Hc w'; cbn [run_loop]; [discriminate|].
  pose proof (never_breaks_exec cur w Hc) as H.
  destruct (exec cur w) as [[|] w1 | e w1 | c1 w1]; try discriminate.
  - apply IH; assumption.
  - contradiction.
Qed.

Lemma never_breaks_redirect_stderr_on p : never_breaks (_redirect_stderr_on p).
Proof.
  unfold _redirect_stderr_on. cbn [bind await never_breaks]. intros data.
  destruct (utf8_decode data) as [text|]; [|exact I].
  cbv zeta. destruct (strip text); [exact I|]. cbn. intros _. exact I.
Qed.

Lemma never_breaks_redirect_stderr : never_breaks _redirect_stderr.
Proof.
  unfold _redirect_stderr. cbn [bind await never_breaks]. intros p.
  apply never_breaks_redirect_stderr_on.
Qed.

Lemma with_same_stderr (w : world) (r : StreamReader) :
  stderr (self w) = Some r -> set_self w (set_stderr (self w) r) = w.
Proof.
  destruct w as [[p wr rd er rdy qu] ld lg sp tk tr]. cbn. intros ->. reflexivity.
Qed.

Lemma stderr_eof_iteration (w : world) (p : nat) :
  proc (self w) = Some p -> stderr (self w) = Some (mkReader [] true) ->
  exec _redirect_stderr w = Done Continue w.
Proof.
  intros Hp Hs. unfold _redirect_stderr.
  rewrite exec_bind, exec_await. cbn [handle]. unfold on_attribute. rewrite Hp.
  unfold _redirect_stderr_on. rewrite exec_bind, exec_await. cbn [handle].
  unfold on_readline. rewrite Hp, Hs, Nat.eqb_refl.
  change (readline (mkReader [] true)) with (RlLine [] (mkReader [] true)).
  cbv beta iota. rewrite (with_same_stderr w _ Hs). reflexivity.
Qed.

(** C6, as amended: the loop of the stderr sink has no exit.  At end of
    stream the read returns an empty byte string at once; the loop treats
    it as an empty line, skips it and reads again: whatever the number of
    iterations, the loop is still running and has changed nothing, logged
    nothing and raised nothing. *)
Theorem stderr_sink_has_no_exit :
  (forall (n : nat) (w w' : world),
     run_loop n _redirect_stderr _redirect_stderr w <> LoopExit w')
  /\
  (forall (n : nat) (w : world) (p : nat),
     proc (self w) = Some p -> stderr (self w) = Some (mkReader [] true) ->
     run_loop n _redirect_stderr _redirect_stderr w
     = LoopRunning _redirect_stderr w).
Proof.
  split.
  - intros n w w'. apply never_breaks_loop; apply never_breaks_redirect_stderr.
  - intros n w p Hp Hs. induction n as [|n IH]; [reflexivity|].
    cbn [run_loop]. rewrite (stderr_eof_iteration w p Hp Hs). exact IH.
Qed.

(** C6, counterexample: with the child's error stream closed right after
    the start, no number of iterations brings the loop to an end. *)
Lemma stderr_sink_survives_close :
  ~ exists n w',
      run_loop n _redirect_stderr _redirect_stderr (feed_stderr_eof started)
      = LoopExit w'.
Proof.
  intros [n [w' H]]. revert H.
  apply never_breaks_loop; apply never_breaks_redirect_stderr.
Qed.

(** ** The reader loop *)

Lemma split_line_nonl (l rest : bytes) :
  Forall (fun c => c <> 10) l -> split_line (l ++ 10 :: rest) = Some (l, rest).
Proof.
  induction 1 as [|c l Hc _ IH]; cbn [app split_line]; [reflexivity|].
  destruct (N.eqb_spec c 10); [contradiction|]. rewrite IH. reflexivity.
Qed.

Lemma readline_line (l rest : bytes) (e : bool) :
  Forall (fun c => c <> 10) l -> blen l <= limit ->
  readline (mkReader (l ++ 10 :: rest) e) = RlLine (l ++ [10]) (mkReader rest e).
Proof.
  intros Hn Hl. unfold readline. cbn [buffer at_eof].
  rewrite (split_line_nonl l rest Hn).
  destruct (N.ltb_spec limit (blen l)); [lia | reflexivity].
Qed.

Lemma exec_read (w : world) (p : nat) :
  proc (self w) = Some p -> exec _read w = exec (_read_on p) w.
Proof.
  intros Hp. unfold _read. rewrite exec_bind, exec_await. cbn [handle].
  unfold on_attribute. rewrite Hp. reflexivity.
Qed.

Lemma read_on_wait (w : world) (p : nat) :
  proc (self w) = Some p -> reader (self w) = Some (mkReader [] false) ->
  exec (_read_on p) w = Blocked (_read_on p) w.
Proof.
  intros Hp Hr. unfold _read_on at 1. rewrite exec_bind, exec_await.
  cbn [handle]. unfold on_readline. rewrite Hp, Hr, Nat.eqb_refl. reflexivity.
Qed.

Lemma read_on_line (w : world) (p : nat) (l rest : bytes) (e : bool) :
  proc (self w) = Some p ->
  reader (self w) = Some (mkReader (l ++ 10 :: rest) e) ->
  Forall (fun c => c <> 10) l -> blen l <= limit ->
  let w1 := set_self w (set_reader (self w) (mkReader rest e)) in
  exec (_read_on p) w
  = match decoded l with
    | None => Failed UnicodeDecodeError w1
    | Some (inl v) => Done Continue (enqueued w1 v)
    | Some (inr text) =>
        Done Continue (logged w1 WARNING (py "Invalid JSON data: " ++ text))
    end.
Proof.
  intros Hp Hr Hn Hl w1. unfold _read_on. rewrite exec_bind, exec_await.
  cbn [handle]. unfold on_readline. rewrite Hp, Hr, Nat.eqb_refl.
  rewrite (readline_line l rest e Hn Hl). fold w1. cbn [exec].
  unfold decoded. destruct (utf8_decode (l ++ [10])) as [text|]; [|reflexivity].
  cbv zeta. destruct (loads (strip text)) as [v|].
  - rewrite exec_bind, exec_await. reflexivity.
  - rewrite exec_bind, exec_log. reflexivity.
Qed.

Lemma reader_takes_lines (p : nat) (ls : list bytes) : forall w : world,
  proc (self w) = Some p ->
  reader (self w) = Some (mkReader (stream_of ls) false) ->
  Forall textual ls ->
  exists w',
    run_loop (S (List.length ls)) _read (_read_on p) w
    = LoopBlocked (_read_on p) w'
    /\ queue (self w') = queue (self w) ++ values_of ls
    /\ log w' = (if logger_disabled w then log w else log w ++ warnings_of ls)
    /\ reader (self w') = Some (mkReader [] false)
    /\ proc (self w') = Some p
    /\ logger_disabled w' = logger_disabled w
    /\ ready (self w') = ready (self w)
    /\ writer (self w') = writer (self w).
Proof.
  induction ls as [|l ls IH]; intros w Hp Hr HF.
  - exists w. cbn [List.length run_loop]. rewrite (read_on_wait w p Hp Hr).
    cbn [values_of warnings_of]. rewrite !List.app_nil_r.
    destruct (logger_disabled w); repeat split; assumption.
  - inversion HF as [|? ? [Hn [Hl Hd]] HF']; subst.
    change (stream_of (l :: ls)) with ((l ++ [10]) ++ stream_of ls) in Hr.
    rewrite <- app_assoc in Hr. cbn [app] in Hr.
    cbn [List.length]. cbn [run_loop].
    rewrite (read_on_line w p l (stream_of ls) false Hp Hr Hn Hl).
    cbn [values_of warnings_of].
    destruct (decoded l) as [[v | text]|]; [ | | contradiction ].
    + set (w2 := enqueued _ v).
      destruct (IH w2) as [w' [E [Q [L [R [P [D [Rd W]]]]]]]];
        [exact Hp | reflexivity | exact HF' |].
      exists w'. split.
      { destruct (List.length ls); cbn [run_loop] in *;
          rewrite (exec_read w2 p Hp); exact E. }
      rewrite Q, L, R, P, D, Rd, W. unfold w2, enqueued, record, set_self, set_queue, set_reader.
      cbn. rewrite <- app_assoc. repeat split.
    + set (w2 := logged _ WARNING _).
      assert (S2 : self w2 = set_reader (self w) (mkReader (stream_of ls) false))
        by (unfold w2; rewrite logged_self; reflexivity).
      destruct (IH w2) as [w' [E [Q [L [R [P [D [Rd W]]]]]]]];
        [rewrite S2; exact Hp | rewrite S2; reflexivity | exact HF' |].
      exists w'. split.
      { assert (Hp2 : proc (self w2) = Some p) by (rewrite S2; exact Hp).
        destruct (List.length ls); cbn [run_loop] in *;
          rewrite (exec_read w2 p Hp2); exact E. }
      rewrite Q, L, R, P, D, Rd, W, S2. unfold w2, logged, set_self, set_reader.
      cbn. destruct (logger_disabled w); cbn; rewrite <- ?app_assoc; repeat split.
Qed.

Lemma values_of_app (a b : list bytes) :
  values_of (a ++ b) = values_of a ++ values_of b.
Proof.
  induction a as [|l a IH]; cbn [app values_of]; [reflexivity|].
  destruct (decoded l) as [[v|t]|]; rewrite IH; reflexivity.
Qed.

Lemma warnings_of_app (a b : list bytes) :
  warnings_of (a ++ b) = warnings_of a ++ warnings_of b.
Proof.
  induction a as [|l a IH]; cbn [app warnings_of]; [reflexivity|].
  destruct (decoded l) as [[v|t]|]; rewrite IH; reflexivity.
Qed.



(** ** Instances *)


(** C10: a response object whose [error] field is present but falsy is
    returned unchanged by [_get_result]; nothing is raised. *)
Theorem falsy_error_is_success
  (w : world) (d : list (str * json)) (e : json) (q : list json) :
  queue (self w) = JObj d :: q ->
  dict_lookup (py "error") d = Some e ->
  truthy e = false ->
  exec _get_result w = Done (JObj d) (dequeued w (JObj d) q).
Proof.
  intros Hq He Ht. rewrite (get_result_classified w (JObj d) q Hq).
  unfold has_error, dict_get. rewrite He, Ht. reflexivity.
Qed.

Lemma falsy_error_is_success_witness :
  returned_unchanged (JObj [(py "error", JStr [])])
  /\ returned_unchanged (JObj [(py "error", JBool false)])
  /\ returned_unchanged (JObj [(py "error", JNull)])
  /\ returned_unchanged (JObj [(py "error", JNum 0)]).
Proof.
  unfold returned_unchanged. refine (conj _ (conj _ (conj _ _))).
  - exact (falsy_error_is_success
             (answered (JObj [(py "error", JStr [])]))
             [(py "error", JStr [])] (JStr []) [] eq_refl eq_refl eq_refl).
  - exact (falsy_error_is_success
             (answered (JObj [(py "error", JBool false)]))
             [(py "error", JBool false)] (JBool false) []
             eq_refl eq_refl eq_refl).
  - exact (falsy_error_is_success
             (answered (JObj [(py "error", JNull)]))
             [(py "error", JNull)] JNull [] eq_refl eq_refl eq_refl).
  - exact (falsy_error_is_success
             (answered (JObj [(py "error", JNum 0)]))
             [(py "error", JNum 0)] (JNum 0) [] eq_refl eq_refl eq_refl).
Defined.

Lemma ensure_connected_reconciles_witness :
  exec ensure_connected started = Blocked ensure_connected started
  /\ exists k1,
       exec ensure_connected ready_session
       = Blocked k1 (requested (set_logger_disabled ready_session true)
                               (mkWriter [] false false) (command "status")).
Proof.
  split.
  - exact (proj1 ensure_connected_reconciles started eq_refl).
  - destruct (proj2 ensure_connected_reconciles ready_session
                (mkWriter [] false false) eq_refl eq_refl
                (conj eq_refl eq_refl) eq_refl) as [k1 [E _]].
    exists k1. exact E.
Defined.

Lemma stop_sequence_witness :
  exists k,
    exec stop ready_session
    = Blocked k
        (requested
           (logged (logged ready_session INFO (py "Stopping NumWorks object"))
                   INFO (py "Disconnecting from the NumWorks"))
           (mkWriter [] false false) (command "disconnect")).
Proof.
  destruct (stop_sequence ready_session (mkWriter [] false false)
              eq_refl eq_refl (conj eq_refl eq_refl) eq_refl) as [k [E _]].
  exists k. exact E.
Defined.

Lemma watcher_dies_on_non_object_witness :
  run_loop 2 _wait_for_ready _wait_for_ready
           (enqueued (enqueued started (JObj [])) (JNum 7))
  = LoopFailed AttributeError
      (dequeue_all (enqueued (enqueued started (JObj [])) (JNum 7))
                   [JObj []; JNum 7]).
Proof.
  exact (proj1 (watcher_dies_on_non_object
                  (enqueued (enqueued started (JObj [])) (JNum 7))
                  [JObj []] (JNum 7) [] 2
                  (Forall_cons (JObj []) (conj (eq_refl true) (eq_refl false))
                     (Forall_nil _))
                  eq_refl eq_refl (le_n 2))).
Defined.

Lemma readiness_gate_witness :
  run_loop 1 _wait_for_ready _wait_for_ready
           (enqueued started (JObj [(py "ready", JBool true)]))
  = LoopExit (readied (dequeued (enqueued started
                                   (JObj [(py "ready", JBool true)]))
                                (JObj [(py "ready", JBool true)]) [])).
Proof.
  exact (proj1 (proj1 readiness_gate
                  (enqueued started (JObj [(py "ready", JBool true)]))
                  (JObj [(py "ready", JBool true)]) [] 0%nat
                  eq_refl eq_refl)).
Defined.

Lemma stderr_sink_has_no_exit_witness :
  run_loop 5 _redirect_stderr _redirect_stderr (feed_stderr_eof started)
  = LoopRunning _redirect_stderr (feed_stderr_eof started).
Proof.
  exact (proj2 stderr_sink_has_no_exit 5%nat (feed_stderr_eof started) 1%nat
           eq_refl eq_refl).
Defined.

Lemma three_lines_textual : Forall textual three_lines.
Proof.
  repeat constructor; try (intro; discriminate); vm_compute; discriminate.
Defined.


(** * The codec, the framing and the calls *)

(** ** Strings survive [encode_basestring_ascii] and [scanstring] *)

Lemma land_ones_mod (a : N) (n : N) : N.land a (N.ones n) = a mod 2 ^ n.
Proof. apply N.land_ones. Qed.

Lemma lor_add_low (x y k : N) : y < 2 ^ k -> N.lor (x * 2 ^ k) y = x * 2 ^ k + y.
Proof.
  intros Hy.
  assert (H : N.land (x * 2 ^ k) y = 0).
  { apply N.bits_inj. intros i. rewrite N.land_spec, N.bits_0.
    destruct (N.ltb_spec i k) as [Hi | Hi].
    - rewrite N.mul_pow2_bits_low by exact Hi. reflexivity.
    - destruct (N.eq_dec y 0) as [-> | Hy0]; [rewrite N.bits_0; apply andb_false_r|].
      rewrite (N.bits_above_log2 y i); [apply andb_false_r|].
      apply N.log2_lt_pow2 in Hy; lia. }
  rewrite N.add_nocarry_lxor by exact H. symmetry. apply N.lxor_lor. exact H.
Qed.

Lemma hex_value_digit (d : N) : d < 16 -> hex_value (hex_digit d) = Some d.
Proof.
  intros H. unfold hex_digit, hex_value, in_range.
  destruct (N.ltb_spec d 10).
  - replace ((48 <=? 48 + d) && (48 + d <=? 57)) with true.
    + f_equal. lia.
    + symmetry. apply andb_true_iff. split; apply N.leb_le; lia.
  - replace ((48 <=? 87 + d) && (87 + d <=? 57)) with false.
    + replace ((97 <=? 87 + d) && (87 + d <=? 102)) with true.
      * f_equal. lia.
      * symmetry. apply andb_true_iff. split; apply N.leb_le; lia.
    + symmetry. apply andb_false_iff. right. apply N.leb_gt. lia.
Qed.

Lemma nibble (c k : N) : N.land (N.shiftr c k) 0xF = (c / 2 ^ k) mod 16.
Proof.
  change 0xF with (N.ones 4). rewrite N.land_ones, N.shiftr_div_pow2. reflexivity.
Qed.

Lemma decode_hex4_hex4 (c : N) :
  c < 0x10000 ->
  decode_hex4 (hex_digit (N.land (N.shiftr c 12) 0xF))
              (hex_digit (N.land (N.shiftr c 8) 0xF))
              (hex_digit (N.land (N.shiftr c 4) 0xF))
              (hex_digit (N.land c 0xF))
  = Some c.
Proof.
  intros Hc. unfold decode_hex4.
  rewrite !hex_value_digit by apply land_15.
  f_equal. rewrite (nibble c 12), (nibble c 8), (nibble c 4).
  change (N.land c 0xF) with (N.land c (N.ones 4)). rewrite N.land_ones.
  change (2 ^ 12) with 4096. change (2 ^ 8) with 256. change (2 ^ 4) with 16.
  pose proof (N.div_mod c 16). pose proof (N.div_mod (c / 16) 16).
  pose proof (N.div_mod (c / 256) 16). pose proof (N.div_mod (c / 4096) 16).
  assert (c / 16 / 16 = c / 256)
    by (rewrite N.Div0.div_div; reflexivity).
  assert (c / 256 / 16 = c / 4096)
    by (rewrite N.Div0.div_div; reflexivity).
  assert (c / 4096 < 16) by (apply N.Div0.div_lt_upper_bound; exact Hc).
  assert (Hs : (c / 4096) mod 16 = c / 4096) by (apply N.mod_small; assumption).
  pose proof (N.mod_lt c 16). pose proof (N.mod_lt (c / 16) 16).
  pose proof (N.mod_lt (c / 256) 16).
  lia.
Qed.

Lemma surrogates_of (c : N) :
  0x10000 <= c < 0x110000 ->
  let v := c - 0x10000 in
  let hi := N.lor 0xD800 (N.land (N.shiftr v 10) 0x3FF) in
  let lo := N.lor 0xDC00 (N.land v 0x3FF) in
  is_high_surrogate hi = true /\ is_low_surrogate lo = true
  /\ join_surrogates hi lo = c.
Proof.
  intros Hc v hi lo.
  assert (Hv : v < 0x100000) by (unfold v; lia).
  assert (Hq : v / 1024 < 1024) by (apply N.Div0.div_lt_upper_bound; exact Hv).
  assert (Hm : v mod 1024 < 1024) by (apply N.mod_lt; discriminate).
  assert (Hhi : hi = 0xD800 + v / 1024).
  { unfold hi. change 0x3FF with (N.ones 10).
    rewrite N.land_ones, N.shiftr_div_pow2. change (2 ^ 10) with 1024.
    rewrite (N.mod_small _ _ Hq).
    change 0xD800 with (54 * 2 ^ 10). apply lor_add_low. exact Hq. }
  assert (Hlo : lo = 0xDC00 + v mod 1024).
  { unfold lo. change 0x3FF with (N.ones 10). rewrite N.land_ones.
    change (2 ^ 10) with 1024.
    change 0xDC00 with (55 * 2 ^ 10). apply lor_add_low. exact Hm. }
  assert (Hj : (v / 1024) * 1024 + v mod 1024 = v)
    by (pose proof (N.div_mod v 1024); lia).
  assert (Hcv : c = 0x10000 + v) by (unfold v; lia).
  clearbody hi lo. subst hi lo.
  assert (Hsh : N.lor (N.shiftl (v / 1024) 10) (v mod 1024) = v).
  { rewrite N.shiftl_mul_pow2, lor_add_low by exact Hm. exact Hj. }
  clearbody v. revert Hq Hm Hsh. generalize (v / 1024) (v mod 1024).
  intros q m Hq Hm Hsh. split; [|split].
  - unfold is_high_surrogate, in_range. apply andb_true_iff.
    split; apply N.leb_le; lia.
  - unfold is_low_surrogate, in_range. apply andb_true_iff.
    split; apply N.leb_le; lia.
  - unfold join_surrogates.
    replace (0xD800 + q - 0xD800) with q by lia.
    replace (0xDC00 + m - 0xDC00) with m by lia.
    rewrite Hsh. symmetry. exact Hcv.
Qed.

Lemma scanstring_char (c : N) (tail : str) :
  scalar c ->
  scanstring (escape_char c ++ tail)
  = option_map (fun p => (c :: fst p, snd p)) (scanstring tail).
Proof.
  intros [Hc Hs]. unfold escape_char.
  destruct (N.eqb_spec c 34) as [-> | H34]; [reflexivity|].
  destruct (N.eqb_spec c 92) as [-> | H92]; [reflexivity|].
  destruct (N.eqb_spec c 10) as [-> | H10]; [reflexivity|].
  destruct (N.eqb_spec c 13) as [-> | H13]; [reflexivity|].
  destruct (N.eqb_spec c 9) as [-> | H9]; [reflexivity|].
  destruct (N.eqb_spec c 8) as [-> | H8]; [reflexivity|].
  destruct (N.eqb_spec c 12) as [-> | H12]; [reflexivity|].
  destruct (in_range 32 126 c) eqn:Hp.
  - cbn [app scanstring].
    destruct (N.eqb_spec c 34); [contradiction|].
    destruct (N.eqb_spec c 92); [contradiction|].
    unfold in_range in Hp. apply andb_true_iff in Hp. destruct Hp as [Hlo _].
    apply N.leb_le in Hlo. destruct (N.ltb_spec c 32); [lia | reflexivity].
  - destruct (N.ltb_spec c 0x10000) as [Hlt | Hge].
    + unfold hex4. cbn [app scanstring N.eqb Pos.eqb].
      rewrite (decode_hex4_hex4 c Hlt).
      replace (is_high_surrogate c) with false; [reflexivity|].
      symmetry. unfold is_high_surrogate, in_range. apply andb_false_iff.
      destruct (N.leb_spec 0xD800 c); [right | left; reflexivity].
      apply N.leb_gt. lia.
    + cbv zeta.
      destruct (surrogates_of c (conj Hge Hc)) as [Hhi [Hlo Hj]].
      set (hi := N.lor 0xD800 _) in *. set (lo := N.lor 0xDC00 _) in *.
      assert (Hhi' : hi < 0x10000).
      { unfold is_high_surrogate, in_range in Hhi. apply andb_true_iff in Hhi.
        destruct Hhi as [_ Hh]. apply N.leb_le in Hh. lia. }
      assert (Hlo' : lo < 0x10000).
      { unfold is_low_surrogate, in_range in Hlo. apply andb_true_iff in Hlo.
        destruct Hlo as [_ Hl]. apply N.leb_le in Hl. lia. }
      unfold hex4. cbn [app scanstring N.eqb Pos.eqb andb].
      rewrite (decode_hex4_hex4 hi Hhi'), Hhi.
      rewrite (decode_hex4_hex4 lo Hlo'), Hlo, Hj. reflexivity.
Qed.

Lemma scanstring_escaped (s : str) (rest : str) :
  scalar_text s ->
  scanstring (flat_map escape_char s ++ 34 :: rest) = Some (s, rest).
Proof.
  induction 1 as [|c s Hc _ IH]; [reflexivity|].
  cbn [flat_map]. rewrite <- List.app_assoc, (scanstring_char c _ Hc), IH.
  reflexivity.
Qed.

(** ** Integers survive [int.__repr__] and the number scanner *)

Lemma chars_uint_chars (d : Decimal.uint) : chars_uint (uint_chars d) = d.
Proof.
  induction d; cbn [uint_chars chars_uint]; try reflexivity;
    match goal with H : chars_uint _ = _ |- _ => rewrite H end; reflexivity.
Qed.

Lemma span_digits_chars (d : Decimal.uint) (rest : str) :
  match rest with [] => True | c :: _ => is_digit c = false end ->
  span_digits (uint_chars d ++ rest) = (uint_chars d, rest).
Proof.
  intros Hr. induction d; cbn [uint_chars app span_digits];
    try (match goal with H : span_digits _ = _ |- _ => rewrite H end;
         reflexivity).
  destruct rest as [|c rest]; [reflexivity|]. cbn [span_digits]. rewrite Hr.
  reflexivity.
Qed.

Lemma delimited_no_digit (rest : str) :
  delimited rest -> match rest with [] => True | c :: _ => is_digit c = false end.
Proof.
  destruct rest as [|c rest]; [trivial|]. intros [-> | [-> | ->]]; reflexivity.
Qed.

Lemma delimited_no_float (rest : str) : delimited rest -> float_follows rest = false.
Proof.
  destruct rest as [|c rest]; [reflexivity|].
  intros [-> | [-> | ->]]; reflexivity.
Qed.

Lemma to_uint_normal (p : positive) : Decimal.nzhead (Pos.to_uint p) = Pos.to_uint p.
Proof.
  pose proof (DecimalPos.Unsigned.to_of (Pos.to_uint p)) as H.
  rewrite DecimalPos.Unsigned.of_to in H. cbn [N.to_uint] in H.
  assert (Hn : Decimal.nzhead (Pos.to_uint p) <> Decimal.Nil).
  { intros E. unfold Decimal.unorm in H. rewrite E in H.
    exact (DecimalPos.Unsigned.to_uint_nonzero p H). }
  rewrite (DecimalFacts.unorm_nzhead _ Hn) in H. symmetry. exact H.
Qed.

Lemma to_uint_head (p : positive) :
  exists c ds,
    uint_chars (Pos.to_uint p) = c :: uint_chars ds
    /\ in_range 49 57 c = true /\ (c =? 45) = false /\ (c =? 48) = false
    /\ digit_uint c ds = Pos.to_uint p.
Proof.
  pose proof (to_uint_normal p) as H.
  pose proof (DecimalPos.Unsigned.to_uint_nonnil p) as Hn.
  destruct (Pos.to_uint p) as [ | d | d | d | d | d | d | d | d | d | d ];
    [ contradiction | | .. ];
    try (eexists; exists d; repeat split; reflexivity).
  exfalso. cbn [Decimal.nzhead] in H.
  pose proof (DecimalFacts.nb_digits_nzhead d) as L. rewrite H in L.
  cbn [Decimal.nb_digits] in L. lia.
Qed.

Lemma match_number_repr (n : Z) (rest : str) :
  delimited rest ->
  match_number (int_repr n ++ rest) = Some (JNum n, rest).
Proof.
  intros Hd. pose proof (delimited_no_digit rest Hd) as Hnd.
  pose proof (delimited_no_float rest Hd) as Hnf.
  unfold int_repr. destruct n as [|p|p]; cbn [Z.to_int].
  - unfold match_number. cbn. rewrite Hnf. reflexivity.
  - destruct (to_uint_head p) as [c [ds [E [Hr [H45 [H48 Hu]]]]]].
    rewrite E. unfold match_number. cbn [app]. rewrite H45, H48, Hr.
    rewrite (span_digits_chars ds rest Hnd). cbn [fst snd]. rewrite Hnf.
    cbn [chars_uint]. rewrite chars_uint_chars, Hu.
    change (Decimal.Pos (Pos.to_uint p)) with (Z.to_int (Zpos p)).
    rewrite DecimalZ.of_to. reflexivity.
  - destruct (to_uint_head p) as [c [ds [E [Hr [H45 [H48 Hu]]]]]].
    rewrite E. unfold match_number. cbn [app N.eqb Pos.eqb]. rewrite H48, Hr.
    rewrite (span_digits_chars ds rest Hnd). cbn [fst snd]. rewrite Hnf.
    cbn [chars_uint]. rewrite chars_uint_chars, Hu.
    change (Decimal.Neg (Pos.to_uint p)) with (Z.to_int (Zneg p)).
    rewrite DecimalZ.of_to. reflexivity.
Qed.

(** ** Values survive [json.dumps] and [json.loads] *)

Lemma str_eqb_eq (a b : str) : str_eqb a b = true <-> a = b.
Proof.
  revert b. induction a as [|x a IH]; intros [|y b]; cbn [str_eqb];
    try (split; [discriminate | discriminate]); [split; reflexivity|].
  rewrite andb_true_iff, N.eqb_eq, IH. split.
  - intros [-> ->]. reflexivity.
  - intros E. injection E as -> ->. split; reflexivity.
Qed.

Lemma dict_set_fresh (k : str) (v : json) (d : list (str * json)) :
  ~ In k (List.map fst d) -> dict_set k v d = d ++ [(k, v)].
Proof.
  induction d as [|[k' v'] d IH]; intros Hn; cbn [dict_set app]; [reflexivity|].
  destruct (str_eqb k k') eqn:E.
  - apply str_eqb_eq in E. subst k'. exfalso. apply Hn. left. reflexivity.
  - rewrite IH; [reflexivity|]. intros Hi. apply Hn. right. exact Hi.
Qed.

Lemma dict_of_pairs_nodup (d : list (str * json)) :
  NoDup (List.map fst d) -> dict_of_pairs d = d.
Proof.
  unfold dict_of_pairs.
  assert (G : forall acc, NoDup (List.map fst (acc ++ d)) ->
              fold_left (fun a kv => dict_set (fst kv) (snd kv) a) d acc
              = acc ++ d).
  { induction d as [|[k v] d IH]; intros acc Hn; cbn [fold_left].
    - rewrite List.app_nil_r. reflexivity.
    - cbn [fst snd]. rewrite dict_set_fresh.
      + rewrite IH; rewrite <- List.app_assoc; [reflexivity | exact Hn].
      + rewrite List.map_app in Hn. cbn [List.map fst] in Hn.
        apply NoDup_remove_2 in Hn. intros Hi. apply Hn.
        apply in_or_app. left. exact Hi. }
  intros Hn. apply (G [] Hn).
Qed.

Lemma digit_opener (c : N) : in_range 49 57 c = true -> opener c.
Proof.
  unfold in_range. rewrite andb_true_iff, !N.leb_le. intros [A B].
  assert (H : c = 49 \/ c = 50 \/ c = 51 \/ c = 52 \/ c = 53 \/ c = 54
              \/ c = 55 \/ c = 56 \/ c = 57) by lia.
  repeat destruct H as [-> | H]; try subst c; repeat split.
Qed.

Lemma dumps_head (v : json) : exists c t, dumps v = c :: t /\ opener c.
Proof.
  destruct v as [ | [|] | n | s | l | d]; cbn [dumps];
    try (eexists; eexists; split; [reflexivity | repeat split]).
  unfold int_repr. destruct n as [|p|p]; cbn [Z.to_int].
  - eexists; eexists; split; [reflexivity | repeat split].
  - destruct (to_uint_head p) as [c [ds [E [Hr _]]]]. rewrite E.
    exists c, (uint_chars ds). split; [reflexivity | apply digit_opener; exact Hr].
  - eexists; eexists; split; [reflexivity | repeat split].
Qed.

Lemma skip_ws_dumps (v : json) (t : str) : skip_ws (dumps v ++ t) = dumps v ++ t.
Proof.
  destruct (dumps_head v) as [c [u [E [Hw _]]]]. rewrite E.
  cbn [app skip_ws]. rewrite Hw. reflexivity.
Qed.

Lemma comma_app (t : str) : py ", " ++ t = 44 :: 32 :: t.
Proof. reflexivity. Qed.

Lemma colon_app (t : str) : py ": " ++ t = 58 :: 32 :: t.
Proof. reflexivity. Qed.

Lemma join_cons2 (sep p q : str) (ps : list str) :
  join sep (p :: q :: ps) = p ++ sep ++ join sep (q :: ps).
Proof. reflexivity. Qed.

Lemma skip_ws_space_dumps (v : json) (t : str) :
  skip_ws (32 :: dumps v ++ t) = dumps v ++ t.
Proof. cbn [skip_ws is_ws N.eqb Pos.eqb orb]. apply skip_ws_dumps. Qed.

Lemma join_dumps_head (y : json) (l : list json) (t : str) :
  exists u, join (py ", ") (List.map dumps (y :: l)) ++ t = dumps y ++ u.
Proof.
  destruct l as [|z l].
  - exists t. reflexivity.
  - cbn [List.map]. rewrite join_cons2, <- List.app_assoc. eexists. reflexivity.
Qed.

Lemma array_loop_items (l : list json) :
  l <> [] -> Forall scans l ->
  forall (fuel : nat) (rest : str),
    (sizes l <= fuel)%nat ->
    array_loop fuel (join (py ", ") (List.map dumps l) ++ 93 :: rest)
    = Some (l, rest).
Proof.
  induction l as [|x l IH]; [contradiction|]. intros _ HF fuel rest Hf.
  inversion HF as [|? ? Hx HF']; subst.
  destruct fuel as [|fuel]; [cbn [sizes] in Hf; lia|].
  cbn [sizes] in Hf. destruct l as [|y l].
  - cbn [List.map join array_loop].
    rewrite (Hx fuel (93 :: rest)); [ | lia | right; left; reflexivity ].
    reflexivity.
  - cbn [List.map]. rewrite join_cons2, <- !List.app_assoc, comma_app.
    cbn [array_loop].
    rewrite (Hx fuel); [ | lia | left; reflexivity ].
    cbn [skip_ws is_ws N.eqb Pos.eqb orb].
    change (dumps y :: List.map dumps l) with (List.map dumps (y :: l)).
    destruct (join_dumps_head y l (93 :: rest)) as [u Eu].
    rewrite Eu, skip_ws_dumps, <- Eu.
    rewrite (IH ltac:(discriminate) HF' fuel rest ltac:(cbn [sizes] in *; lia)).
    reflexivity.
Qed.

Lemma dumps_item_shape (kv : str * json) (t : str) :
  dumps_item kv ++ t
  = 34 :: flat_map escape_char (fst kv)
       ++ 34 :: 58 :: 32 :: dumps (snd kv) ++ t.
Proof.
  unfold dumps_item, encode_basestring_ascii.
  rewrite <- !List.app_assoc, colon_app. cbn [app].
  rewrite <- !List.app_assoc. reflexivity.
Qed.

Lemma join_items_head (kv : str * json) (d : list (str * json)) (t : str) :
  exists s, join (py ", ") (List.map dumps_item (kv :: d)) ++ t = 34 :: s.
Proof.
  destruct d as [|kv2 d]; cbn [List.map].
  - cbn [join]. rewrite dumps_item_shape. eexists. reflexivity.
  - rewrite join_cons2, <- List.app_assoc, dumps_item_shape. eexists. reflexivity.
Qed.

Lemma object_loop_items (d : list (str * json)) :
  d <> [] ->
  Forall (fun kv => scalar_text (fst kv) /\ scans (snd kv)) d ->
  forall (fuel : nat) (rest s : str),
    (osizes d <= fuel)%nat ->
    34 :: s = join (py ", ") (List.map dumps_item d) ++ 125 :: rest ->
    object_loop fuel s = Some (d, rest).
Proof.
  induction d as [|kv d IH]; [contradiction|]. intros _ HF fuel rest s Hf Hs.
  inversion HF as [|? ? [Hk Hv] HF']; subst.
  destruct fuel as [|fuel]; [cbn [osizes] in Hf; lia|].
  cbn [osizes] in Hf. destruct kv as [k v]. cbn [fst snd] in *.
  destruct d as [|kv2 d].
  - cbn [List.map join] in Hs. rewrite dumps_item_shape in Hs.
    injection Hs as ->. cbn [fst snd object_loop].
    rewrite (scanstring_escaped k _ Hk).
    cbn [skip_ws is_ws N.eqb Pos.eqb orb]. rewrite skip_ws_dumps.
    rewrite (Hv fuel (125 :: rest)); [ | lia | right; right; reflexivity ].
    reflexivity.
  - change (List.map dumps_item ((k, v) :: kv2 :: d))
      with (dumps_item (k, v) :: List.map dumps_item (kv2 :: d)) in Hs.
    destruct (join_items_head kv2 d (125 :: rest)) as [s2 E2].
    assert (J : join (py ", ")
                  (dumps_item (k, v) :: List.map dumps_item (kv2 :: d))
                = dumps_item (k, v) ++ py ", "
                  ++ join (py ", ") (List.map dumps_item (kv2 :: d)))
      by apply join_cons2.
    rewrite J, <- !List.app_assoc, dumps_item_shape, comma_app, E2 in Hs.
    injection Hs as ->. cbn [fst snd object_loop].
    rewrite (scanstring_escaped k _ Hk).
    cbn [skip_ws is_ws N.eqb Pos.eqb orb]. rewrite skip_ws_dumps.
    rewrite (Hv fuel); [ | lia | left; reflexivity ].
    cbn [skip_ws is_ws N.eqb Pos.eqb orb].
    rewrite (IH ltac:(discriminate) HF' fuel rest s2
               ltac:(cbn [osizes] in *; lia) (eq_sym E2)).
    reflexivity.
Qed.

Lemma valid_arr (l : list json) : valid_json (JArr l) <-> Forall valid_json l.
Proof.
  cbn [valid_json]. induction l as [|x l IH].
  - split; intros _; [constructor | exact I].
  - split.
    + intros [Hx Hl]. constructor; [exact Hx | apply IH; exact Hl].
    + intros H. inversion H; subst. split; [assumption | apply IH; assumption].
Qed.

Lemma valid_obj (d : list (str * json)) :
  valid_json (JObj d)
  <-> NoDup (List.map fst d)
      /\ Forall (fun kv => scalar_text (fst kv) /\ valid_json (snd kv)) d.
Proof.
  cbn [valid_json]. apply and_iff_compat_l. induction d as [|kv d IH].
  - split; intros _; [constructor | exact I].
  - split.
    + intros [Hx Hl]. constructor; [exact Hx | apply IH; exact Hl].
    + intros H. inversion H; subst. split; [assumption | apply IH; assumption].
Qed.

Lemma json_size_arr (l : list json) : json_size (JArr l) = S (sizes l).
Proof.
  reflexivity. Qed.

Lemma json_size_obj (d : list (str * json)) : json_size (JObj d) = S (osizes d).
Proof.
  reflexivity. Qed.

Lemma dumps_arr (l : list json) :
  dumps (JArr l) = 91 :: join (py ", ") (List.map dumps l) ++ [93].
Proof. reflexivity. Qed.

Lemma dumps_obj (d : list (str * json)) :
  dumps (JObj d) = 123 :: join (py ", ") (List.map dumps_item d) ++ [125].
Proof. reflexivity. Qed.

Lemma scan_once_dumps (v : json) : valid_json v -> scans v.
Proof.
  induction v as [ | b | n | s | l IH | d IH ] using json_induction;
    intros Hv fuel rest Hf Hd.
  - destruct fuel as [|fuel]; [cbn in Hf; lia|]. reflexivity.
  - destruct fuel as [|fuel]; [cbn in Hf; lia|]. destruct b; reflexivity.
  - destruct fuel as [|fuel]; [cbn in Hf; lia|].
    pose proof (match_number_repr n rest Hd) as M.
    cbn [dumps]. unfold int_repr in *.
    destruct n as [|p|p]; cbn [Z.to_int] in *.
    + exact M.
    + destruct (to_uint_head p) as [c [ds [E [Hr [H45 [H48 Hu]]]]]].
      rewrite E in *. cbn [app scan_once] in *.
      unfold in_range in Hr. apply andb_true_iff in Hr. destruct Hr as [A B].
      apply N.leb_le in A, B.
      destruct (N.eqb_spec c 34); [lia|]. destruct (N.eqb_spec c 123); [lia|].
      destruct (N.eqb_spec c 91); [lia|].
      destruct c as [|q]; [lia|].
      do 7 (destruct q as [q|q|]; try lia; try exact M).
    + cbn [app scan_once N.eqb Pos.eqb] in *. exact M.
  - destruct fuel as [|fuel]; [cbn in Hf; lia|].
    cbn [dumps]. unfold encode_basestring_ascii.
    cbn [app scan_once N.eqb Pos.eqb]. rewrite <- List.app_assoc. cbn [app].
    rewrite (scanstring_escaped s rest Hv). reflexivity.
  - rewrite json_size_arr in Hf. destruct fuel as [|fuel]; [lia|].
    apply valid_arr in Hv. rewrite dumps_arr.
    assert (HF : Forall scans l).
    { clear Hf. induction IH as [|x l Hx _ IHl]; [constructor|].
      inversion Hv; subst. constructor; [apply Hx; assumption | apply IHl; assumption]. }
    destruct l as [|x l].
    + reflexivity.
    + cbn [app scan_once N.eqb Pos.eqb]. rewrite <- List.app_assoc. cbn [app].
      destruct (join_dumps_head x l (93 :: rest)) as [u Eu].
      rewrite Eu. destruct (dumps_head x) as [c [t [Ec [Hw [_ [H93 _]]]]]].
      rewrite Ec. cbn [app skip_ws]. rewrite Hw, H93.
      change (c :: t ++ u) with ((c :: t) ++ u). rewrite <- Ec, <- Eu.
      rewrite (array_loop_items (x :: l) ltac:(discriminate) HF fuel rest
                 ltac:(lia)).
      reflexivity.
  - rewrite json_size_obj in Hf. destruct fuel as [|fuel]; [lia|].
    apply valid_obj in Hv. destruct Hv as [Hn Hv]. rewrite dumps_obj.
    assert (HF : Forall (fun kv => scalar_text (fst kv) /\ scans (snd kv)) d).
    { clear Hf Hn. induction IH as [|x l Hx _ IHl]; [constructor|].
      inversion Hv as [|? ? [Hk Hx'] Hl]; subst.
      constructor; [split; [exact Hk | apply Hx; exact Hx'] | apply IHl; assumption]. }
    destruct d as [|kv d].
    + reflexivity.
    + cbn [app scan_once N.eqb Pos.eqb]. rewrite <- List.app_assoc. cbn [app].
      destruct (join_items_head kv d (125 :: rest)) as [s2 E2].
      rewrite E2. cbn [skip_ws is_ws N.eqb Pos.eqb orb].
      rewrite (object_loop_items (kv :: d) ltac:(discriminate) HF fuel rest s2
                 ltac:(lia) (eq_sym E2)).
      cbn [option_map fst snd]. rewrite (dict_of_pairs_nodup _ Hn). reflexivity.
Qed.

Lemma join_length_ge (f : json -> str) (l : list json) :
  (forall x, In x l -> (json_size x <= List.length (f x))%nat) ->
  (sizes l <= List.length (join (py ", ") (List.map f l)) + 1)%nat.
Proof.
  induction l as [|x l IH]; intros H; [cbn; lia|].
  assert (Hx := H x (or_introl eq_refl)).
  assert (Hl := IH (fun y Hy => H y (or_intror Hy))).
  destruct l as [|y l].
  - cbn [sizes List.map join]. lia.
  - cbn [List.map]. rewrite join_cons2, !List.length_app.
    change (List.map f (y :: l)) with (f y :: List.map f l) in Hl.
    cbn [sizes] in *. cbn [List.length py] . 
    change (List.length (py ", ")) with 2%nat. lia.
Qed.

Lemma items_length_ge (d : list (str * json)) :
  (forall kv, In kv d -> (json_size (snd kv) <= List.length (dumps (snd kv)))%nat) ->
  (osizes d <= List.length (join (py ", ") (List.map dumps_item d)) + 1)%nat.
Proof.
  induction d as [|x l IH]; intros H; [cbn; lia|].
  assert (Hx := H x (or_introl eq_refl)).
  assert (Hl := IH (fun y Hy => H y (or_intror Hy))).
  assert (Hi : (List.length (dumps (snd x)) <= List.length (dumps_item x))%nat).
  { unfold dumps_item. rewrite !List.length_app. lia. }
  destruct l as [|y l].
  - cbn [osizes List.map join]. lia.
  - cbn [List.map]. rewrite join_cons2, !List.length_app.
    change (List.map dumps_item (y :: l)) with (dumps_item y :: List.map dumps_item l) in Hl.
    cbn [osizes] in *.
    change (List.length (py ", ")) with 2%nat. lia.
Qed.

Lemma json_size_dumps (v : json) : (json_size v <= List.length (dumps v))%nat.
Proof.
  induction v as [ | b | n | s | l IH | d IH ] using json_induction.
  - cbn. lia.
  - destruct b; cbn; lia.
  - destruct (dumps_head (JNum n)) as [c [t [E _]]]. rewrite E. cbn. lia.
  - cbn [json_size dumps]. unfold encode_basestring_ascii. cbn [List.length]. lia.
  - rewrite json_size_arr, dumps_arr. cbn [List.length].
    rewrite List.length_app. cbn [List.length].
    pose proof (join_length_ge dumps l) as H.
    rewrite Forall_forall in IH. specialize (H IH). lia.
  - rewrite json_size_obj, dumps_obj. cbn [List.length].
    rewrite List.length_app. cbn [List.length].
    pose proof (items_length_ge d) as H.
    rewrite Forall_forall in IH. specialize (H IH). lia.
Qed.

Lemma loads_dumps (v : json) : valid_json v -> loads (dumps v) = Some v.
Proof.
  intros Hv. unfold loads.
  pose proof (skip_ws_dumps v []) as W. rewrite List.app_nil_r in W. rewrite W.
  pose proof (scan_once_dumps v Hv (2 * List.length (dumps v) + 2)%nat []) as S.
  rewrite List.app_nil_r in S. rewrite S; [reflexivity | | exact I].
  pose proof (json_size_dumps v). lia.
Qed.

Lemma utf8_decode_low (s : bytes) :
  Forall (fun c => c < 0x80) s -> utf8_decode s = Some s.
Proof.
  induction 1 as [|c s Hc _ IH]; cbn [utf8_decode]; [reflexivity|].
  destruct (N.ltb_spec c 0x80); [|lia]. rewrite IH. reflexivity.
Qed.

Lemma ascii_low (s : str) : ascii_text s -> Forall (fun c => c < 0x80) s.
Proof.
  apply Forall_impl. intros c Hc. unfold printable in Hc. lia.
Qed.

Lemma blank_low (s : str) : Forall blank s -> Forall (fun c => c < 0x80) s.
Proof. apply Forall_impl. intros c [Hc _]. exact Hc. Qed.

Lemma lstrip_blank (pre s : str) : Forall blank pre -> lstrip (pre ++ s) = lstrip s.
Proof.
  induction 1 as [|c pre [_ Hc] _ IH]; [reflexivity|].
  cbn [app lstrip]. rewrite Hc. exact IH.
Qed.

Lemma rstrip_blank (s post : str) : Forall blank post -> rstrip (s ++ post) = rstrip s.
Proof.
  intros H. unfold rstrip. rewrite List.rev_app_distr.
  rewrite lstrip_blank; [reflexivity|]. apply Forall_rev. exact H.
Qed.

Lemma rstrip_last (t : str) (c : N) :
  is_space c = false -> rstrip (t ++ [c]) = t ++ [c].
Proof.
  intros H. unfold rstrip. rewrite List.rev_app_distr. cbn [rev app lstrip].
  rewrite H. cbn [rev]. rewrite List.rev_involutive. reflexivity.
Qed.

Lemma strip_blank (pre s post : str) (c d : N) (t u : str) :
  s = c :: t -> s = u ++ [d] -> is_space c = false -> is_space d = false ->
  Forall blank pre -> Forall blank post ->
  strip (pre ++ s ++ post) = s.
Proof.
  intros E1 E2 Hc Hd Hpre Hpost. unfold strip.
  rewrite (lstrip_blank pre _ Hpre).
  assert (L : lstrip (s ++ post) = s ++ post).
  { rewrite E1. cbn [app lstrip]. rewrite Hc. reflexivity. }
  rewrite L, (rstrip_blank s post Hpost), E2. apply rstrip_last. exact Hd.
Qed.

Lemma uint_chars_digits (d : Decimal.uint) :
  Forall (fun c => is_space c = false) (uint_chars d).
Proof. induction d; cbn [uint_chars]; constructor; auto. Qed.

Lemma last_not_space (s : str) :
  s <> [] -> Forall (fun c => is_space c = false) s ->
  exists t c, s = t ++ [c] /\ is_space c = false.
Proof.
  intros Hn HF. destruct (exists_last Hn) as [t [c E]]. exists t, c.
  split; [exact E|]. rewrite E in HF. apply Forall_app in HF.
  destruct HF as [_ HF]. inversion HF; assumption.
Qed.

Lemma dumps_last (v : json) :
  exists t c, dumps v = t ++ [c] /\ is_space c = false.
Proof.
  destruct v as [ | [|] | n | s | l | d].
  - exists (py "nul"), 108. split; reflexivity.
  - exists (py "tru"), 101. split; reflexivity.
  - exists (py "fals"), 101. split; reflexivity.
  - apply last_not_space.
    + destruct (dumps_head (JNum n)) as [c [t [E _]]]. rewrite E. discriminate.
    + cbn [dumps]. unfold int_repr. destruct (Z.to_int n);
        [ | constructor; [reflexivity|] ]; apply uint_chars_digits.
  - exists (34 :: flat_map escape_char s), 34. split; reflexivity.
  - eexists (91 :: _), 93. split; reflexivity.
  - eexists (123 :: _), 125. split; reflexivity.
Qed.

Lemma decoded_padded (pre post : bytes) (v : json) :
  valid_json v -> Forall blank pre -> Forall blank post ->
  decoded (pre ++ dumps v ++ post) = Some (inl v).
Proof.
  intros Hv Hpre Hpost. unfold decoded.
  assert (Hnl : Forall blank (post ++ [10])).
  { apply Forall_app. split; [exact Hpost|].
    constructor; [split; reflexivity | constructor]. }
  rewrite <- !List.app_assoc.
  rewrite utf8_decode_low.
  2:{ apply Forall_app. split; [apply blank_low; exact Hpre|].
      apply Forall_app. split; [apply ascii_low, dumps_ascii | apply blank_low; exact Hnl]. }
  destruct (dumps_head v) as [c [t [E1 [_ [Hc _]]]]].
  destruct (dumps_last v) as [u [d [E2 Hd]]].
  rewrite (strip_blank pre (dumps v) (post ++ [10]) c d t u E1 E2 Hc Hd Hpre Hnl).
  rewrite (loads_dumps v Hv). reflexivity.
Qed.

Lemma decoded_dumps (v : json) : valid_json v -> decoded (dumps v) = Some (inl v).
Proof.
  intros Hv. pose proof (decoded_padded [] [] v Hv (Forall_nil _) (Forall_nil _)) as H.
  cbn [app] in H. rewrite List.app_nil_r in H. exact H.
Qed.

Lemma ascii_nonl (s : str) : ascii_text s -> Forall (fun c => c <> 10) s.
Proof. apply Forall_impl. intros c Hc. unfold printable in Hc. lia. Qed.

Lemma readline_too_long (l rest : bytes) (e : bool) :
  Forall (fun c => c <> 10) l -> limit < blen l ->
  readline (mkReader (l ++ 10 :: rest) e) = RlValueError (mkReader rest e).
Proof.
  intros Hn Hl. unfold readline. cbn [buffer at_eof].
  rewrite (split_line_nonl l rest Hn).
  destruct (N.ltb_spec limit (blen l)); [reflexivity | lia].
Qed.

Lemma read_on_too_long (w : world) (p : nat) (l rest : bytes) (e : bool) :
  proc (self w) = Some p ->
  reader (self w) = Some (mkReader (l ++ 10 :: rest) e) ->
  Forall (fun c => c <> 10) l -> limit < blen l ->
  exec (_read_on p) w
  = Failed ValueError (set_self w (set_reader (self w) (mkReader rest e))).
Proof.
  intros Hp Hr Hn Hl. unfold _read_on. rewrite exec_bind, exec_await.
  cbn [handle]. unfold on_readline. rewrite Hp, Hr, Nat.eqb_refl.
  rewrite (readline_too_long l rest e Hn Hl). reflexivity.
Qed.

Lemma lines_from_line (l : bytes) : forall (cur b : bytes),
  Forall (fun c => c <> 10) l ->
  lines_from cur (l ++ 10 :: b) = (cur ++ l) :: lines_from [] b.
Proof.
  induction l as [|c l IH]; intros cur b H.
  - cbn [app lines_from N.eqb Pos.eqb]. rewrite List.app_nil_r. reflexivity.
  - inversion H as [|? ? Hc Hl]; subst. cbn [app lines_from].
    destruct (N.eqb_spec c 10); [contradiction|].
    rewrite (IH _ b Hl), <- List.app_assoc. reflexivity.
Qed.

Lemma lines_from_stream (ls : list bytes) (b : bytes) :
  Forall (Forall (fun c => c <> 10)) ls ->
  lines_from [] (stream_of ls ++ b) = ls ++ lines_from [] b.
Proof.
  induction 1 as [|l ls Hl _ IH]; [reflexivity|].
  change (stream_of (l :: ls)) with ((l ++ [10]) ++ stream_of ls).
  rewrite <- !List.app_assoc. cbn [app].
  rewrite (lines_from_line l [] _ Hl). cbn [app]. rewrite IH. reflexivity.
Qed.



Lemma never_breaks_read_on p : never_breaks (_read_on p).
Proof.
  unfold _read_on. cbn [bind await never_breaks]. intros data.
  destruct (utf8_decode data) as [text|]; [|exact I].
  cbv zeta. destruct (loads (strip text)); cbn; intros _; exact I.
Qed.

Lemma never_breaks_read : never_breaks _read.
Proof.
  unfold _read. cbn [bind await never_breaks]. intros p.
  apply never_breaks_read_on.
Qed.

Lemma with_same_reader (w : world) (r : StreamReader) :
  reader (self w) = Some r -> set_self w (set_reader (self w) r) = w.
Proof.
  destruct w as [[p wr rd er rdy qu] ld lg sp tk tr]. cbn. intros ->. reflexivity.
Qed.

Lemma read_eof_iteration (w : world) (p : nat) :
  proc (self w) = Some p -> reader (self w) = Some (mkReader [] true) ->
  exec _read w = Done Continue (logged w WARNING (py "Invalid JSON data: ")).
Proof.
  intros Hp Hs. rewrite (exec_read w p Hp). unfold _read_on.
  rewrite exec_bind, exec_await. cbn [handle].
  unfold on_readline. rewrite Hp, Hs, Nat.eqb_refl.
  change (readline (mkReader [] true)) with (RlLine [] (mkReader [] true)).
  cbv beta iota. rewrite (with_same_reader w _ Hs).
  change (utf8_decode []) with (Some (@nil N)). cbv beta iota zeta.
  change (loads (strip [])) with (@None json). cbv beta iota.
  change (strip []) with (@nil N).
  rewrite exec_bind, exec_log. reflexivity.
Qed.

Lemma warned_spec (n : nat) : forall w : world,
  self (warned n w) = self w
  /\ logger_disabled (warned n w) = logger_disabled w
  /\ trace (warned n w) = trace w
  /\ log (warned n w)
     = if logger_disabled w then log w
       else log w ++ repeat (LogRecord WARNING (py "Invalid JSON data: ")) n.
Proof.
  induction n as [|n IH]; intros w; cbn [warned repeat].
  - rewrite List.app_nil_r. destruct (logger_disabled w); repeat split.
  - destruct (IH (logged w WARNING (py "Invalid JSON data: "))) as [S [D [T L]]].
    rewrite S, D, T, L, logged_self. unfold logged.
    destruct (logger_disabled w) eqn:E; cbn; rewrite ?E; repeat split.
    rewrite <- List.app_assoc. reflexivity.
Qed.

(** X5: the loop of [_read] has no exit, and the end of the child's output
    does not stop it.  At end of stream every read returns an empty byte
    string at once; it is not valid JSON, so each iteration logs the
    warning with an empty text (nothing while logging is disabled) and goes
    on to the next read without ever waiting: after any number of
    iterations the loop is still running, the object and the queue are as
    they were, and the log has grown by one warning per iteration. *)
Theorem reader_spins_after_eof :
  (forall (n : nat) (w w' : world), run_loop n _read _read w <> LoopExit w')
  /\
  (forall (n : nat) (w : world) (p : nat),
     proc (self w) = Some p -> reader (self w) = Some (mkReader [] true) ->
     run_loop n _read _read w = LoopRunning _read (warned n w)
     /\ self (warned n w) = self w
     /\ trace (warned n w) = trace w
     /\ log (warned n w)
        = if logger_disabled w then log w
          else log w ++ repeat (LogRecord WARNING (py "Invalid JSON data: ")) n).
Proof.
  split.
  - intros n w w'. apply never_breaks_loop; apply never_breaks_read.
  - intros n w p Hp Hs.
    destruct (warned_spec n w) as [S [_ [T L]]].
    split; [|split; [exact S | split; [exact T | exact L]]].
    clear S T L. revert w Hp Hs. induction n as [|n IH]; intros w Hp Hs; [reflexivity|].
    cbn [run_loop warned]. rewrite (read_eof_iteration w p Hp Hs).
    apply IH; rewrite logged_self; assumption.
Qed.

(** X4: a line longer than the limit given to [create_subprocess_exec]
    makes [readline] raise [ValueError], which [_read] does not catch: the
    reader task ends with it, whether or not the line is valid JSON.  The
    line is dropped from the stream, nothing is enqueued or logged, and
    what follows it is never read. *)
Theorem reader_dies_on_long_line
  (n : nat) (w : world) (p : nat) (l rest : bytes) (e : bool) (cur : coro ctl) :
  cur = _read \/ cur = _read_on p ->
  proc (self w) = Some p ->
  reader (self w) = Some (mkReader (l ++ 10 :: rest) e) ->
  Forall (fun c => c <> 10) l -> limit < blen l ->
  run_loop (S n) _read cur w
  = LoopFailed ValueError
      (set_self w (set_reader (self w) (mkReader rest e))).
Proof.
  intros Hc Hp Hr Hn Hl. cbn [run_loop].
  assert (E : exec cur w = exec (_read_on p) w).
  { destruct Hc as [-> | ->]; [apply exec_read; exact Hp | reflexivity]. }
  rewrite E, (read_on_too_long w p l rest e Hp Hr Hn Hl). reflexivity.
Qed.

Lemma feed_data_started (data : bytes) :
  proc (self (feed_data data started)) = Some 1%nat
  /\ reader (self (feed_data data started)) = Some (mkReader data false).
Proof. split; reflexivity. Qed.

Lemma long_line_spec :
  Forall (fun c => c <> 10) long_line /\ limit < blen long_line.
Proof.
  unfold long_line. split.
  - apply Forall_forall. intros c Hc. apply repeat_spec in Hc. subst c. discriminate.
  - unfold blen. rewrite repeat_length, N2Nat.id. lia.
Qed.

Lemma reader_dies_on_long_line_witness :
  run_loop 1 _read _read (feed_data (long_line ++ [10]) started)
  = LoopFailed ValueError
      (set_self (feed_data (long_line ++ [10]) started)
         (set_reader (self (feed_data (long_line ++ [10]) started))
            (mkReader [] false))).
Proof.
  exact (reader_dies_on_long_line 0 (feed_data (long_line ++ [10]) started) 1
           long_line [] false _read (or_introl eq_refl)
           (proj1 (feed_data_started _)) (proj2 (feed_data_started _))
           (proj1 long_line_spec) (proj2 long_line_spec)).
Defined.

Lemma ensure_connected_waits (w : world) :
  ready (self w) = false ->
  exec ensure_connected w = Blocked ensure_connected w.
Proof.
  intros Hr. unfold ensure_connected at 1.
  rewrite exec_bind, exec_ensure_ready, Hr. reflexivity.
Qed.

Lemma exec_set_disabled (b : bool) (w : world) :
  exec (await (LoggerSetDisabled b)) w = Done tt (set_logger_disabled w b).
Proof. rewrite exec_await. reflexivity. Qed.

Lemma ensure_connected_sends (w : world) (x : StreamWriter) :
  ready (self w) = true -> writer (self w) = Some x -> open x ->
  queue (self w) = [] ->
  exec ensure_connected w
  = Blocked ensure_connected_resume
      (requested (set_logger_disabled w true) x (command "status")).
Proof.
  intros Hr Hw Ho Hq. unfold ensure_connected.
  rewrite exec_bind, exec_ensure_ready, Hr.
  rewrite exec_bind, exec_set_disabled, exec_bind.
  rewrite (status_sends _ x); try assumption. reflexivity.
Qed.

Lemma ensure_connected_resumes (w : world) (v : json) (q : list json) :
  queue (self w) = v :: q ->
  let w3 := set_logger_disabled (dequeued w v q) false in
  exec ensure_connected_resume w
  = if has_error v
    then Failed (JavaScriptError (error_of v)) (dequeued w v q)
    else match v with
         | JObj d =>
             match dict_lookup (py "status") d with
             | Some st =>
                 if truthy st then Done tt w3 else exec (connect ;; Ret tt) w3
             | None => Failed (KeyError (py "status")) w3
             end
         | _ => Failed TypeError w3
         end.
Proof.
  intros Hq w3. unfold ensure_connected_resume.
  rewrite exec_bind, (get_result_classified w v q Hq).
  destruct (has_error v); [reflexivity|].
  rewrite exec_bind, exec_set_disabled. fold w3. rewrite exec_bind.
  destruct v as [ | b | n | s | l | d]; try reflexivity.
  unfold subscript. destruct (dict_lookup (py "status") d) as [st|]; [|reflexivity].
  cbn [exec]. destruct (truthy st); reflexivity.
Qed.

(** X6: while the event is not set (before the ready message, and again
    after [stop]), each of the seven RPC methods and [stop] itself waits
    in [ensure_ready] before anything is written: the object, its streams
    and its queue are untouched, and only the log record of the method may
    have been added. *)
Theorem calls_wait_for_ready (w : world) :
  ready (self w) = false ->
  (forall m : rpc,
     exists (c : coro json) (w' : world),
       exec (call m) w = Blocked c w'
       /\ self w' = self w /\ trace w' = trace w
       /\ logger_disabled w' = logger_disabled w)
  /\ (exists (c : coro unit) (w' : world),
        exec stop w = Blocked c w'
        /\ self w' = self w /\ trace w' = trace w
        /\ logger_disabled w' = logger_disabled w).
Proof.
  intros Hr.
  assert (L : forall w0 l t,
            self (logged w0 l t) = self w0 /\ trace (logged w0 l t) = trace w0
            /\ logger_disabled (logged w0 l t) = logger_disabled w0).
  { intros w0 l t. unfold logged.
    destruct (logger_disabled w0) eqn:E; cbn; rewrite ?E; repeat split. }
  split.
  - intros m. destruct m; cbn [call];
      unfold connect, disconnect, status, get_model, get_platform_info,
             backup_storage, install_storage;
      rewrite exec_bind;
      first
        [ rewrite exec_log, exec_bind;
          first [ rewrite exec_ensure_ready, logged_self, Hr
                | rewrite ensure_connected_waits by (rewrite logged_self; exact Hr) ];
          eexists; eexists; split; [reflexivity | apply L]
        | rewrite (ensure_connected_waits w Hr);
          eexists; eexists; split; [reflexivity | repeat split] ].
  - unfold stop, disconnect.
    rewrite exec_bind, exec_log, exec_bind, exec_bind, exec_log, exec_bind.
    rewrite exec_ensure_ready, !logged_self, Hr.
    eexists; eexists; split; [reflexivity|].
    destruct (L w INFO (py "Stopping NumWorks object")) as [S1 [T1 D1]].
    destruct (L (logged w INFO (py "Stopping NumWorks object")) INFO
                (py "Disconnecting from the NumWorks")) as [S2 [T2 D2]].
    rewrite S2, T2, D2, S1, T1, D1. repeat split.
Qed.

Lemma write_then_wait (cmd : json) (w : world) (x : StreamWriter) :
  writer (self w) = Some x -> open x -> queue (self w) = [] ->
  exec (_write cmd ;; _get_result) w = Blocked _get_result (requested w x cmd).
Proof.
  intros Hw Ho Hq. rewrite exec_bind, (exec_write w x cmd Hw Ho).
  apply get_result_waits. exact Hq.
Qed.

Lemma trace_logged (w : world) (l : level) (t : str) : trace (logged w l t) = trace w.
Proof. unfold logged. destruct (logger_disabled w); reflexivity. Qed.

Lemma disabled_logged (w : world) (l : level) (t : str) :
  logger_disabled (logged w l t) = logger_disabled w.
Proof. unfold logged. destruct (logger_disabled w) eqn:E; [exact E | reflexivity]. Qed.

(** X7: [ensure_connected] disables the logger before its status call and
    enables it again only after the call has returned.  When the answer to
    the status request is an error response, the [JavaScriptError] leaves
    [ensure_connected] before that statement: the logger stays disabled,
    and every later record is dropped. *)
Theorem ensure_connected_error_leaves_logging_disabled
  (w : world) (x : StreamWriter) :
  ready (self w) = true -> writer (self w) = Some x -> open x ->
  queue (self w) = [] ->
  exists (k : coro unit) (w1 : world),
    exec ensure_connected w = Blocked k w1
    /\ logger_disabled w1 = true
    /\ forall (w2 : world) (v : json) (q : list json),
         queue (self w2) = v :: q -> has_error v = true ->
         logger_disabled w2 = true ->
         exists w3,
           exec k w2 = Failed (JavaScriptError (error_of v)) w3
           /\ logger_disabled w3 = true
           /\ writer (self w3) = writer (self w2)
           /\ forall (l : level) (t : str), exec (await (Log l t)) w3 = Done tt w3.
Proof.
  intros Hr Hw Ho Hq. eexists. eexists.
  split; [apply (ensure_connected_sends w x Hr Hw Ho Hq)|].
  split; [reflexivity|].
  intros w2 v q Hq2 He Hd. exists (dequeued w2 v q).
  rewrite (ensure_connected_resumes w2 v q Hq2), He.
  split; [reflexivity|]. split; [exact Hd|]. split; [reflexivity|].
  intros l t. rewrite exec_log. unfold logged.
  change (logger_disabled (dequeued w2 v q)) with (logger_disabled w2).
  rewrite Hd. reflexivity.
Qed.

(** X8: when the answer to the status request of [ensure_connected] is no
    error response and has no [status] field, the subscript fails:
    [KeyError] for an object without the key, [TypeError] for a value that
    is no object.  The logger has been enabled again and no [connect]
    request is written. *)
Theorem ensure_connected_needs_status_field
  (w : world) (x : StreamWriter) :
  ready (self w) = true -> writer (self w) = Some x -> open x ->
  queue (self w) = [] ->
  exists (k : coro unit) (w1 : world),
    exec ensure_connected w = Blocked k w1
    /\ forall (w2 : world) (v : json) (q : list json),
         queue (self w2) = v :: q -> has_error v = false ->
         status_of v = None ->
         exec k w2
         = Failed (if is_dict v then KeyError (py "status") else TypeError)
                  (set_logger_disabled (dequeued w2 v q) false).
Proof.
  intros Hr Hw Ho Hq. eexists. eexists.
  split; [apply (ensure_connected_sends w x Hr Hw Ho Hq)|].
  intros w2 v q Hq2 He Hs.
  rewrite (ensure_connected_resumes w2 v q Hq2), He.
  destruct v as [ | b | n | s | l | d]; try reflexivity.
  unfold status_of in Hs. rewrite Hs. reflexivity.
Qed.

Lemma device_call_shape (m : rpc) :
  needs_device m = true ->
  exists (pre post : option str),
    call m
    = (match pre with Some t => await (Log INFO t) | None => Ret tt end ;;
       ensure_connected ;;
       match post with Some t => await (Log INFO t) | None => Ret tt end ;;
       _write (request_of m) ;; _get_result).
Proof.
  destruct m; try discriminate; intros _.
  - exists (Some (py "Getting the model of the NumWorks")), None. reflexivity.
  - exists None, (Some (py "Getting the platformInfo of the NumWorks")). reflexivity.
  - exists (Some (py "Backing up the storage of the NumWorks")), None. reflexivity.
  - exists (Some (py "Installing the storage on the NumWorks")), None. reflexivity.
Qed.

Lemma exec_announce (o : option str) (w : world) :
  exec (match o with Some t => await (Log INFO t) | None => Ret tt end) w
  = Done tt (announced o w).
Proof. destruct o; [apply exec_log | reflexivity]. Qed.

Lemma announced_spec (o : option str) (w : world) :
  self (announced o w) = self w /\ trace (announced o w) = trace w
  /\ logger_disabled (announced o w) = logger_disabled w.
Proof.
  destruct o as [t|]; cbn [announced]; [|repeat split].
  rewrite logged_self, trace_logged, disabled_logged. repeat split.
Qed.

Lemma trace_requested (w : world) (x : StreamWriter) (cmd : json) :
  trace (requested w x cmd) = trace w ++ [EvWrite (dumps cmd); EvWrite [10]].
Proof. reflexivity. Qed.

Lemma device_call_sends (m : rpc) (w : world) (x : StreamWriter) :
  needs_device m = true ->
  ready (self w) = true -> writer (self w) = Some x -> open x ->
  queue (self w) = [] ->
  exists (post : option str) (w1 : world),
    exec (call m) w
    = Blocked (ensure_connected_resume ;;
               match post with Some t => await (Log INFO t) | None => Ret tt end ;;
               _write (request_of m) ;; _get_result) w1
    /\ trace w1 = trace w ++ [EvWrite (dumps (command "status")); EvWrite [10]]
    /\ logger_disabled w1 = true.
Proof.
  intros Hm Hr Hw Ho Hq. destruct (device_call_shape m Hm) as [pre [post E]].
  destruct (announced_spec pre w) as [S [T D]].
  exists post. eexists. rewrite E. split.
  - rewrite exec_bind, exec_announce, exec_bind.
    rewrite (ensure_connected_sends _ x); rewrite ?S; try assumption.
    reflexivity.
  - rewrite trace_requested. cbn [set_logger_disabled trace]. rewrite T.
    split; reflexivity.
Qed.




(** X11: the watcher takes from the queue every object that precedes the
    ready message, and the ready message itself; then it sets the event
    and leaves its loop.  The objects it took are gone: what [_get_result]
    finds afterwards is what followed the ready message. *)
Theorem watcher_consumes_until_ready
  (w : world) (pre : list json) (rdy : json) (rest : list json) (n : nat) :
  Forall (fun u => is_dict u = true /\ has_ready u = false) pre ->
  is_dict rdy = true -> has_ready rdy = true ->
  queue (self w) = pre ++ rdy :: rest ->
  (List.length pre < n)%nat ->
  let w' := readied (dequeue_all w (pre ++ [rdy])) in
  run_loop n _wait_for_ready _wait_for_ready w = LoopExit w'
  /\ queue (self w') = rest
  /\ ready (self w') = true.
Proof.
  intros HF Hd Hr Hq Hn w'.
  assert (Hq' : queue (self (dequeue_all w pre)) = rdy :: rest)
    by (apply dequeue_all_queue; exact Hq).
  split; [|split].
  - replace n with (List.length pre + S (n - S (List.length pre)))%nat by lia.
    rewrite (watcher_skips pre w (rdy :: rest) _ HF Hq).
    cbn [run_loop]. rewrite (exec_wait_for_ready _ rdy rest Hq'), Hd, Hr.
    unfold w'. rewrite dequeue_all_app. cbn [dequeue_all].
    rewrite Hq'. reflexivity.
  - unfold w', readied. cbn [record set_self set_ready self queue].
    apply dequeue_all_queue. rewrite Hq, <- List.app_assoc. reflexivity.
  - reflexivity.
Qed.

Lemma sample_record_valid : valid_json sample_record.
Proof.
  assert (S : forall s, forallb (fun c => (c <? 0xD800) || ((0xDFFF <? c) && (c <? 0x110000))) s = true
              -> scalar_text s).
  { intros s H. apply Forall_forall. intros c Hc.
    rewrite forallb_forall in H. specialize (H c Hc). unfold scalar.
    apply orb_true_iff in H. destruct H as [H | H].
    - apply N.ltb_lt in H. lia.
    - apply andb_true_iff in H. destruct H as [A B].
      apply N.ltb_lt in A, B. lia. }
  cbn [valid_json sample_record List.map fst snd].
  split.
  - repeat constructor; cbn [In]; intuition discriminate.
  - repeat split; try (apply S; reflexivity); constructor.
Qed.



Lemma echoed_line_fits : blen ([32] ++ dumps sample_record ++ [13]) <= limit.
Proof. vm_compute. discriminate. Qed.


Lemma reader_spins_after_eof_witness :
  run_loop 3 _read _read (feed_eof started)
  = LoopRunning _read (warned 3 (feed_eof started))
  /\ log (warned 3 (feed_eof started))
     = if logger_disabled (feed_eof started) then log (feed_eof started)
       else log (feed_eof started)
            ++ repeat (LogRecord WARNING (py "Invalid JSON data: ")) 3.
Proof.
  destruct (proj2 reader_spins_after_eof 3%nat (feed_eof started) 1%nat
              eq_refl eq_refl) as [E [_ [_ L]]].
  exact (conj E L).
Defined.

Lemma calls_wait_for_ready_witness :
  (forall m : rpc,
     exists (c : coro json) (w' : world),
       exec (call m) started = Blocked c w'
       /\ self w' = self started /\ trace w' = trace started
       /\ logger_disabled w' = logger_disabled started)
  /\ (exists (c : coro unit) (w' : world),
        exec stop started = Blocked c w'
        /\ self w' = self started /\ trace w' = trace started
        /\ logger_disabled w' = logger_disabled started).
Proof. exact (calls_wait_for_ready started eq_refl). Defined.

Lemma ensure_connected_error_leaves_logging_disabled_witness :
  exists (k : coro unit) (w1 : world),
    exec ensure_connected ready_session = Blocked k w1
    /\ logger_disabled w1 = true
    /\ forall (w2 : world) (v : json) (q : list json),
         queue (self w2) = v :: q -> has_error v = true ->
         logger_disabled w2 = true ->
         exists w3,
           exec k w2 = Failed (JavaScriptError (error_of v)) w3
           /\ logger_disabled w3 = true
           /\ writer (self w3) = writer (self w2)
           /\ forall (l : level) (t : str), exec (await (Log l t)) w3 = Done tt w3.
Proof.
  exact (ensure_connected_error_leaves_logging_disabled ready_session
           (mkWriter [] false false) eq_refl eq_refl (conj eq_refl eq_refl)
           eq_refl).
Defined.

Lemma ensure_connected_needs_status_field_witness :
  exists (k : coro unit) (w1 : world),
    exec ensure_connected ready_session = Blocked k w1
    /\ forall (w2 : world) (v : json) (q : list json),
         queue (self w2) = v :: q -> has_error v = false ->
         status_of v = None ->
         exec k w2
         = Failed (if is_dict v then KeyError (py "status") else TypeError)
                  (set_logger_disabled (dequeued w2 v q) false).
Proof.
  exact (ensure_connected_needs_status_field ready_session
           (mkWriter [] false false) eq_refl eq_refl (conj eq_refl eq_refl)
           eq_refl).
Defined.



Lemma watcher_consumes_until_ready_witness :
  run_loop 2 _wait_for_ready _wait_for_ready early_answer
  = LoopExit
      (readied (dequeue_all early_answer
                  ([JObj [(py "status", JBool false)]] ++ [ready_message])))
  /\ queue (self (readied (dequeue_all early_answer
                     ([JObj [(py "status", JBool false)]] ++ [ready_message]))))
     = [JNum 7]
  /\ ready (self (readied (dequeue_all early_answer
                     ([JObj [(py "status", JBool false)]] ++ [ready_message]))))
     = true.
Proof.
  exact (watcher_consumes_until_ready early_answer
           [JObj [(py "status", JBool false)]] ready_message [JNum 7] 2
           (Forall_cons (JObj [(py "status", JBool false)])
              (conj (eq_refl true) (eq_refl false)) (Forall_nil _))
           eq_refl eq_refl eq_refl (le_n 2)).
Defined.

(** * Whole sessions *)

(** ** The background tasks in one round of the event loop *)

Lemma iterations_succ (w : world) : exists k, iterations w = S (S k).
Proof. unfold iterations. eexists. rewrite Nat.add_comm. reflexivity. Qed.

Lemma redirect_on_wait (w : world) (p : nat) :
  proc (self w) = Some p -> stderr (self w) = Some (mkReader [] false) ->
  exec (_redirect_stderr_on p) w = Blocked (_redirect_stderr_on p) w.
Proof.
  intros Hp Hr. unfold _redirect_stderr_on at 1. rewrite exec_bind, exec_await.
  cbn [handle]. unfold on_readline. rewrite Hp, Hr, Nat.eqb_refl. reflexivity.
Qed.

Lemma exec_redirect_stderr (w : world) (p : nat) :
  proc (self w) = Some p ->
  exec _redirect_stderr w = exec (_redirect_stderr_on p) w.
Proof.
  intros Hp. unfold _redirect_stderr. rewrite exec_bind, exec_await. cbn [handle].
  unfold on_attribute. rewrite Hp. reflexivity.
Qed.

Lemma step_stderr_idle (w : world) (p : nat) (c : coro ctl) :
  c = _redirect_stderr \/ c = _redirect_stderr_on p ->
  proc (self w) = Some p -> stderr (self w) = Some (mkReader [] false) ->
  step_task RedirectStderr c w = (Pending (_redirect_stderr_on p), w).
Proof.
  intros Hc Hp Hr. unfold step_task.
  destruct (iterations_succ w) as [k ->]. cbn [run_loop body_of].
  assert (E : exec c w = Blocked (_redirect_stderr_on p) w).
  { destruct Hc as [-> | ->];
      [rewrite (exec_redirect_stderr w p Hp)|]; apply redirect_on_wait; assumption. }
  rewrite E. reflexivity.
Qed.

(** The reader takes the one line [dumps v] from the stream. *)
Lemma step_reader_line (w : world) (p : nat) (v : json) (c : coro ctl) :
  c = _read \/ c = _read_on p ->
  valid_json v -> blen (dumps v) <= limit ->
  proc (self w) = Some p ->
  reader (self w) = Some (mkReader (dumps v ++ [10]) false) ->
  step_task ReadTask c w
  = (Pending (_read_on p),
     enqueued (set_self w (set_reader (self w) (mkReader [] false))) v).
Proof.
  intros Hc Hv Hl Hp Hr. unfold step_task.
  destruct (iterations_succ w) as [k ->]. cbn [run_loop body_of].
  assert (E : exec c w
              = Done Continue
                  (enqueued (set_self w (set_reader (self w) (mkReader [] false))) v)).
  { assert (E0 : exec c w = exec (_read_on p) w).
    { destruct Hc as [-> | ->]; [apply exec_read; exact Hp | reflexivity]. }
    rewrite E0.
    rewrite (read_on_line w p (dumps v) [] false Hp Hr
               (ascii_nonl _ (dumps_ascii v)) Hl).
    rewrite (decoded_dumps v Hv). reflexivity. }
  rewrite E.
  set (w1 := enqueued _ v).
  assert (Hp1 : proc (self w1) = Some p) by exact Hp.
  assert (Hr1 : reader (self w1) = Some (mkReader [] false)) by reflexivity.
  rewrite (exec_read w1 p Hp1), (read_on_wait w1 p Hp1 Hr1). reflexivity.
Qed.

Lemma lines_of_stream (ls : list bytes) :
  Forall (Forall (fun c => c <> 10)) ls -> lines_from [] (stream_of ls) = ls.
Proof.
  intros H. pose proof (lines_from_stream ls [] H) as E.
  rewrite !List.app_nil_r in E. exact E.
Qed.

Lemma run_tasks_idle_line (w : world) (p : nat) (v : json) :
  valid_json v -> blen (dumps v) <= limit ->
  proc (self w) = Some p ->
  reader (self w) = Some (mkReader (dumps v ++ [10]) false) ->
  stderr (self w) = Some (mkReader [] false) ->
  run_tasks (idle_pool p) w
  = (idle_pool p,
     enqueued (set_self w (set_reader (self w) (mkReader [] false))) v).
Proof.
  intros Hv Hl Hp Hr Hs. unfold idle_pool. cbn [run_tasks].
  rewrite (step_stderr_idle w p _ (or_intror eq_refl) Hp Hs).
  rewrite (step_reader_line w p v _ (or_intror eq_refl) Hv Hl Hp Hr).
  reflexivity.
Qed.

Section Answering.

Variable reply : list bytes -> json.
Hypothesis reply_valid : forall reqs, valid_json (reply reqs).
Hypothesis reply_fits : forall reqs, blen (dumps (reply reqs)) <= limit.

Lemma round_settled (sys : system) (reqs : list bytes) (l : bytes) :
  settled sys (reqs ++ [l]) (S (List.length reqs)) [] ->
  let sys' := round (answering reply) sys in
  settled sys' (reqs ++ [l]) (S (S (List.length reqs))) [reply (reqs ++ [l])]
  /\ existsb is_spinning (pool sys') = false
  /\ trace (sworld sys') = trace (sworld sys) ++ [EvPut (reply (reqs ++ [l]))]
  /\ log (sworld sys') = log (sworld sys)
  /\ logger_disabled (sworld sys') = logger_disabled (sworld sys).
Proof.
  intros [p [x [Hp [Hw [Ho [Hs [Hn [Hr [He [Hy [Hq [Ht [Hpool [Hc Hv]]]]]]]]]]]]]] sys'.
  destruct sys as [w pl ci sv]. cbn [sworld pool child_id served] in *.
  assert (A : adopt (mkSystem w pl ci sv) = mkSystem w pl ci sv).
  { unfold adopt. cbn [sworld pool child_id served].
    rewrite Hpool. rewrite skipn_all2 by (rewrite Ht; cbn; lia).
    cbn [List.map]. rewrite List.app_nil_r. reflexivity. }
  assert (L : request_lines w = reqs ++ [l]).
  { unfold request_lines. rewrite Hw, Hs. apply lines_of_stream. exact Hn. }
  set (r := reply (reqs ++ [l])).
  assert (C : child_turn (answering reply) (mkSystem w pl ci sv)
              = mkSystem (feed_data (dumps r ++ [10]) w) pl p
                         (S (S (List.length reqs)))).
  { unfold child_turn. cbn [sworld pool child_id served].
    rewrite Hp, Hc, Nat.eqb_refl, Hv, L.
    rewrite List.length_app. cbn [List.length].
    replace (S (List.length reqs + 1) - S (List.length reqs))%nat with 1%nat by lia.
    cbn [reactions]. rewrite List.app_nil_r.
    rewrite firstn_all2 by (rewrite List.length_app; cbn; lia).
    f_equal. lia. }
  assert (F : feed_data (dumps r ++ [10]) w
              = set_self w (set_reader (self w) (mkReader (dumps r ++ [10]) false))).
  { unfold feed_data. rewrite Hr. reflexivity. }
  set (wf := set_self w (set_reader (self w) (mkReader (dumps r ++ [10]) false))).
  assert (B : sys' = mkSystem
                       (enqueued (set_self wf (set_reader (self wf) (mkReader [] false))) r)
                       (idle_pool p) p (S (S (List.length reqs)))).
  { unfold sys', round. rewrite A, C, F. fold wf. unfold background.
    cbn [sworld pool child_id served]. rewrite Hpool.
    rewrite (run_tasks_idle_line wf p r (reply_valid _) (reply_fits _));
      [reflexivity | exact Hp | reflexivity | exact He]. }
  rewrite B. cbn [sworld pool child_id served].
  split; [|split; [reflexivity | split; [reflexivity | split; reflexivity]]].
  exists p, x. cbn [sworld pool child_id served].
  split; [exact Hp|]. split; [exact Hw|]. split; [exact Ho|].
  split; [exact Hs|]. split; [exact Hn|]. split; [reflexivity|].
  split; [exact He|]. split; [exact Hy|].
  split; [cbn; rewrite Hq; reflexivity|]. split; [exact Ht|].
  repeat split.
Qed.

End Answering.

Lemma stream_of_app (a b : list bytes) : stream_of (a ++ b) = stream_of a ++ stream_of b.
Proof. unfold stream_of. rewrite List.map_app, List.concat_app. reflexivity. Qed.

Lemma stream_of_one (l : bytes) : stream_of [l] = l ++ [10].
Proof. unfold stream_of. cbn [List.map List.concat]. apply List.app_nil_r. Qed.

Lemma settled_same (sys : system) (reqs : list bytes) (n : nat) (q : list json)
  (w' : world) :
  settled sys reqs n q ->
  self w' = self (sworld sys) -> tasks w' = tasks (sworld sys) ->
  settled (with_world sys w') reqs n q.
Proof.
  intros [p [x H]] Hs Ht. exists p, x. unfold with_world.
  cbn [sworld pool child_id served]. rewrite Hs, Ht. exact H.
Qed.

Lemma settled_requested (sys : system) (reqs : list bytes) (n : nat)
  (w' : world) (x : StreamWriter) (cmd : json) :
  settled sys reqs n [] ->
  self w' = self (sworld sys) -> tasks w' = tasks (sworld sys) ->
  writer (self (sworld sys)) = Some x ->
  settled (with_world sys (requested w' x cmd)) (reqs ++ [dumps cmd]) n [].
Proof.
  intros [p [x0 [Hp [Hw [Ho [Hs [Hn [Hr [He [Hy [Hq [Ht [Hpool [Hc Hv]]]]]]]]]]]]]] S T Hx.
  rewrite Hw in Hx. injection Hx as <-.
  exists p, (mkWriter (sent x0 ++ dumps cmd ++ [10]) false false).
  unfold with_world, requested. cbn [sworld pool child_id served self tasks].
  unfold set_writer. cbn [proc writer reader stderr ready queue]. rewrite S, T.
  split; [exact Hp|]. split; [reflexivity|]. split; [split; reflexivity|].
  split.
  { cbn [sent]. rewrite Hs, stream_of_app, stream_of_one. reflexivity. }
  split.
  { apply Forall_app. split; [exact Hn|].
    constructor; [apply ascii_nonl, dumps_ascii | constructor]. }
  repeat split; assumption.
Qed.

Lemma settled_dequeued (sys : system) (reqs : list bytes) (n : nat)
  (v : json) (q : list json) :
  settled sys reqs n (v :: q) ->
  settled (with_world sys (dequeued (sworld sys) v q)) reqs n q.
Proof.
  intros [p [x [Hp [Hw [Ho [Hs [Hn [Hr [He [Hy [Hq [Ht [Hpool [Hc Hv]]]]]]]]]]]]]].
  exists p, x. unfold with_world, dequeued, record, set_self, set_queue.
  cbn [sworld pool child_id served self tasks proc writer reader stderr ready queue].
  repeat split; try assumption; apply Ho.
Qed.

Lemma settled_world (sys : system) (reqs : list bytes) (n : nat) (q : list json) :
  settled sys reqs n q ->
  exists x, writer (self (sworld sys)) = Some x /\ open x
            /\ ready (self (sworld sys)) = true
            /\ queue (self (sworld sys)) = q
            /\ request_lines (sworld sys) = reqs.
Proof.
  intros [p [x [Hp [Hw [Ho [Hs [Hn [Hr [He [Hy [Hq [Ht [Hpool [Hc Hv]]]]]]]]]]]]]].
  exists x. repeat split; try assumption; try apply Ho.
  unfold request_lines. rewrite Hw, Hs. apply lines_of_stream. exact Hn.
Qed.

Lemma with_world_twice (sys : system) (w w' : world) :
  with_world (with_world sys w) w' = with_world sys w'.
Proof. reflexivity. Qed.

Section Driving.

Variable child : list bytes -> bytes.

Lemma drive_round {A : Type} (k : nat) (c c' : coro A) (sys : system) (w : world) :
  exec c (sworld sys) = Blocked c' w ->
  existsb is_spinning (pool (round child (with_world sys w))) = false ->
  drive child (S k) c sys = drive child k c' (round child (with_world sys w)).
Proof. intros E H. cbn [drive]. rewrite E. cbv zeta. rewrite H. reflexivity. Qed.

Lemma drive_exec {A : Type} (k : nat) (c c' : coro A) (sys : system) (w : world) :
  (forall B (K : outcome A -> B), K (exec c (sworld sys)) = K (exec c' w)) ->
  drive child k c sys = drive child k c' (with_world sys w).
Proof.
  intros E. destruct k; cbn [drive]; cbn [sworld with_world].
  - apply (E _ (fun o => match o with
                         | Done a w0 => Finished a (with_world sys w0)
                         | Failed e w0 => Raised e (with_world sys w0)
                         | Blocked c0 w0 => Unfinished c0 (with_world sys w0)
                         end)).
  - apply (E _ (fun o => match o with
                         | Done a w0 => Finished a (with_world sys w0)
                         | Failed e w0 => Raised e (with_world sys w0)
                         | Blocked c0 w0 =>
                             let sys' := round child (with_world sys w0) in
                             if existsb is_spinning (pool sys') then Hung sys'
                             else drive child k c0 sys'
                         end)).
Qed.

Lemma drive_result {B : Type} (k : nat) (g : json -> coro B) (sys : system)
  (r : json) (q : list json) :
  queue (self (sworld sys)) = r :: q -> has_error r = false ->
  drive child k (bind _get_result g) sys
  = drive child k (g r) (with_world sys (dequeued (sworld sys) r q)).
Proof.
  intros Hq He. apply drive_exec. intros B0 K.
  rewrite exec_bind, (get_result_classified _ r q Hq), He. reflexivity.
Qed.

End Driving.

Lemma tasks_logged (w : world) (l : level) (t : str) : tasks (logged w l t) = tasks w.
Proof. unfold logged. destruct (logger_disabled w); reflexivity. Qed.

Lemma tasks_announced (o : option str) (w : world) : tasks (announced o w) = tasks w.
Proof. destruct o; [apply tasks_logged | reflexivity]. Qed.

Lemma simple_call_blocks (m : rpc) (w : world) (x : StreamWriter) :
  needs_device m = false ->
  ready (self w) = true -> writer (self w) = Some x -> open x ->
  queue (self w) = [] ->
  exists w' : world,
    exec (call m) w = Blocked _get_result (requested w' x (request_of m))
    /\ self w' = self w /\ tasks w' = tasks w /\ trace w' = trace w.
Proof.
  intros Hm Hr Hw Ho Hq.
  destruct m; try discriminate; cbn [call request_of]; eexists;
    (split;
     [ first [ apply connect_sends | apply disconnect_sends | apply status_sends ];
       assumption
     | rewrite logged_self, tasks_logged, trace_logged; repeat split ]).
Qed.

Lemma device_call_blocks (m : rpc) (w : world) (x : StreamWriter) :
  needs_device m = true ->
  ready (self w) = true -> writer (self w) = Some x -> open x ->
  queue (self w) = [] ->
  exists (post : option str) (w' : world),
    exec (call m) w
    = Blocked (ensure_connected_resume ;;
               match post with Some t => await (Log INFO t) | None => Ret tt end ;;
               _write (request_of m) ;; _get_result)
              (requested w' x (command "status"))
    /\ self w' = self w /\ tasks w' = tasks w /\ trace w' = trace w.
Proof.
  intros Hm Hr Hw Ho Hq. destruct (device_call_shape m Hm) as [pre [post E]].
  destruct (announced_spec pre w) as [S [T D]].
  exists post, (set_logger_disabled (announced pre w) true). rewrite E. split.
  - rewrite exec_bind, exec_announce, exec_bind.
    rewrite (ensure_connected_sends _ x); rewrite ?S; try assumption.
    reflexivity.
  - cbn [set_logger_disabled self tasks trace]. rewrite S, T, tasks_announced.
    repeat split.
Qed.

Lemma device_call_resumes (m : rpc) (post : option str) (w : world)
  (v st : json) (x : StreamWriter) :
  queue (self w) = [v] -> has_error v = false ->
  status_of v = Some st -> truthy st = true ->
  writer (self w) = Some x -> open x ->
  exists w' : world,
    exec (ensure_connected_resume ;;
          match post with Some t => await (Log INFO t) | None => Ret tt end ;;
          _write (request_of m) ;; _get_result) w
    = Blocked _get_result (requested w' x (request_of m))
    /\ self w' = self (dequeued w v []) /\ tasks w' = tasks w
    /\ trace w' = trace w ++ [EvGet v].
Proof.
  intros Hq He Hs Ht Hw Ho.
  set (w3 := set_logger_disabled (dequeued w v []) false).
  destruct (announced_spec post w3) as [S [T3 D]].
  exists (announced post w3).
  rewrite exec_bind, (ensure_connected_resumes w v [] Hq), He.
  destruct v as [ | b | n | s | l | d]; try discriminate.
  unfold status_of in Hs. rewrite Hs, Ht.
  rewrite exec_bind, exec_announce. fold w3.
  rewrite (write_then_wait (request_of m) _ x);
    [ | rewrite S; exact Hw | exact Ho | rewrite S; reflexivity ].
  split; [reflexivity|]. rewrite S, T3, tasks_announced. repeat split.
Qed.

Section OneCall.

Variable reply : list bytes -> json.
Hypothesis reply_valid : forall reqs, valid_json (reply reqs).
Hypothesis reply_fits : forall reqs, blen (dumps (reply reqs)) <= limit.
Hypothesis reply_ok : forall reqs, reqs <> [] -> has_error (reply reqs) = false.
Hypothesis reply_connected :
  forall reqs, exists st,
    status_of (reply (reqs ++ [dumps (command "status")])) = Some st
    /\ truthy st = true.

Lemma quiet_next (sys : system) (reqs : list bytes) (l : bytes) :
  settled sys (reqs ++ [l]) (S (S (List.length reqs))) [] -> quiet sys (reqs ++ [l]).
Proof.
  unfold quiet. rewrite List.length_app. cbn [List.length].
  rewrite Nat.add_1_r. exact (fun H => H).
Qed.

(** One round of the event loop brings the answer to the request [l]. *)
Lemma drive_answer {A : Type} (c c1 : coro A) (sys : system) (reqs : list bytes)
  (l : bytes) (w1 : world) (k : nat) :
  exec c (sworld sys) = Blocked c1 w1 ->
  settled (with_world sys w1) (reqs ++ [l]) (S (List.length reqs)) [] ->
  exists sys1 : system,
    settled sys1 (reqs ++ [l]) (S (S (List.length reqs))) [reply (reqs ++ [l])]
    /\ drive (answering reply) (S k) c sys = drive (answering reply) k c1 sys1
    /\ trace (sworld sys1) = trace w1 ++ [EvPut (reply (reqs ++ [l]))].
Proof.
  intros E H.
  destruct (round_settled reply reply_valid reply_fits _ reqs l H)
    as [S1 [N1 [T1 _]]].
  exists (round (answering reply) (with_world sys w1)).
  split; [exact S1|]. split; [apply drive_round; assumption | exact T1].
Qed.

Lemma not_nil_app (reqs : list bytes) (l : bytes) : reqs ++ [l] <> [].
Proof. destruct reqs; discriminate. Qed.

Lemma drive_call {B : Type} (m : rpc) (g : json -> coro B) (sys : system)
  (reqs : list bytes) (k : nat) :
  quiet sys reqs ->
  exists sys' : system,
    quiet sys' (reqs ++ requests_of m)
    /\ drive (answering reply) (List.length (requests_of m) + k) (bind (call m) g) sys
       = drive (answering reply) k (g (reply (reqs ++ requests_of m))) sys'.
Proof.
  intros Q. destruct (settled_world _ _ _ _ Q) as [x [Hw [Ho [Hr [Hq _]]]]].
  unfold requests_of. destruct (needs_device m) eqn:Hm.
  - (* status first *)
    assert (EQ : reqs ++ [dumps (command "status"); dumps (request_of m)]
                 = (reqs ++ [dumps (command "status")]) ++ [dumps (request_of m)])
      by (rewrite <- List.app_assoc; reflexivity).
    rewrite EQ. clear EQ.
    destruct (device_call_blocks m _ x Hm Hr Hw Ho Hq) as [post [w0 [E [S0 [T0 _]]]]].
    set (C1 := ensure_connected_resume ;; _) in E.
    assert (E1 : exec (bind (call m) g) (sworld sys)
                 = Blocked (bind C1 g) (requested w0 x (command "status")))
      by (rewrite exec_bind, E; reflexivity).
    pose proof (settled_requested sys reqs _ w0 x (command "status") Q S0 T0 Hw) as H1.
    cbn [List.length Nat.add].
    destruct (drive_answer _ _ sys reqs _ _ (S k) E1 H1) as [sys1 [S1 [D1 _]]].
    rewrite D1. clear D1 E1 H1.
    destruct (settled_world _ _ _ _ S1) as [x1 [Hw1 [Ho1 [Hr1 [Hq1 _]]]]].
    destruct (reply_connected reqs) as [st [Hst Htr]].
    pose proof (reply_ok (reqs ++ [dumps (command "status")]) (not_nil_app _ _)) as He1.
    destruct (device_call_resumes m post (sworld sys1) _ st x1 Hq1 He1 Hst Htr Hw1 Ho1)
      as [w2 [E2 [S2 [T2 _]]]].
    fold C1 in E2.
    assert (E3 : exec (bind C1 g) (sworld sys1)
                 = Blocked (bind _get_result g) (requested w2 x1 (request_of m)))
      by (rewrite exec_bind, E2; reflexivity).
    pose proof (settled_dequeued sys1 _ _ _ [] S1) as H2.
    apply quiet_next in H2.
    pose proof (settled_requested _ _ _ w2 x1 (request_of m) H2 S2 T2 Hw1) as H3.
    rewrite with_world_twice in H3.
    rewrite List.length_app in H3. cbn [List.length] in H3.
    rewrite Nat.add_1_r in H3.
    pose proof (drive_answer _ _ sys1 (reqs ++ [dumps (command "status")])
                  (dumps (request_of m)) _ k E3) as DA.
    rewrite List.length_app in DA. cbn [List.length] in DA.
    rewrite Nat.add_1_r in DA.
    destruct (DA H3) as [sys2 [S3 [D3 _]]]. clear DA.
    rewrite D3. clear D3.
    destruct (settled_world _ _ _ _ S3) as [x2 [_ [_ [_ [Hq2 _]]]]].
    rewrite (drive_result _ k g sys2 _ [] Hq2 (reply_ok _ (not_nil_app _ _))).
    eexists. split; [|reflexivity].
    apply quiet_next. rewrite List.length_app. cbn [List.length].
    rewrite Nat.add_1_r. apply settled_dequeued. exact S3.
  - destruct (simple_call_blocks m _ x Hm Hr Hw Ho Hq) as [w0 [E [S0 [T0 _]]]].
    assert (E1 : exec (bind (call m) g) (sworld sys)
                 = Blocked (bind _get_result g) (requested w0 x (request_of m)))
      by (rewrite exec_bind, E; reflexivity).
    pose proof (settled_requested sys reqs _ w0 x (request_of m) Q S0 T0 Hw) as H1.
    cbn [List.length Nat.add].
    destruct (drive_answer _ _ sys reqs _ _ k E1 H1) as [sys1 [S1 [D1 _]]].
    rewrite D1.
    destruct (settled_world _ _ _ _ S1) as [x1 [_ [_ [_ [Hq1 _]]]]].
    rewrite (drive_result _ k g sys1 _ [] Hq1 (reply_ok _ (not_nil_app _ _))).
    eexists. split; [|reflexivity].
    apply quiet_next. apply settled_dequeued. exact S1.
Qed.

End OneCall.

Lemma step_watcher_ready (w : world) (v : json) :
  queue (self w) = [v] -> is_dict v = true -> has_ready v = true ->
  step_task WaitForReady _wait_for_ready w = (Exited, readied (dequeued w v [])).
Proof.
  intros Hq Hd Hr. unfold step_task.
  destruct (iterations_succ w) as [k ->]. cbn [run_loop body_of].
  rewrite (exec_wait_for_ready w v [] Hq), Hd, Hr. reflexivity.
Qed.

Section Calls.

Variable reply : list bytes -> json.
Hypothesis reply_valid : forall reqs, valid_json (reply reqs).
Hypothesis reply_fits : forall reqs, blen (dumps (reply reqs)) <= limit.
Hypothesis reply_ok : forall reqs, reqs <> [] -> has_error (reply reqs) = false.
Hypothesis reply_connected :
  forall reqs, exists st,
    status_of (reply (reqs ++ [dumps (command "status")])) = Some st
    /\ truthy st = true.
Hypothesis reply_ready : is_dict (reply []) = true /\ has_ready (reply []) = true.

Lemma drive_calls {B : Type} (ms : list rpc) :
  forall (f : list json -> coro B) (sys : system) (reqs : list bytes) (k : nat),
    quiet sys reqs ->
    exists sys' : system,
      quiet sys' (reqs ++ List.concat (List.map requests_of ms))
      /\ drive (answering reply) (rounds ms + k) (calls_then ms f) sys
         = drive (answering reply) k (f (replies reply reqs ms)) sys'.
Proof.
  induction ms as [|m ms IH]; intros f sys reqs k Q.
  - exists sys. cbn [List.map List.concat]. rewrite List.app_nil_r.
    split; [exact Q | reflexivity].
  - unfold rounds. cbn [List.map List.concat calls_then replies].
    rewrite List.length_app, <- Nat.add_assoc. fold (rounds ms).
    destruct (drive_call reply reply_valid reply_fits reply_ok reply_connected
                m (fun r => calls_then ms (fun rs => f (r :: rs))) sys reqs
                (rounds ms + k) Q) as [sys1 [Q1 D1]].
    rewrite D1.
    destruct (IH (fun rs => f (reply (reqs ++ requests_of m) :: rs)) sys1
                 (reqs ++ requests_of m) k Q1) as [sys2 [Q2 D2]].
    exists sys2. rewrite List.app_assoc. split; [exact Q2 | exact D2].
Qed.

Lemma round_boot (w : world) (p ci sv : nat) (x : StreamWriter) :
  proc (self w) = Some p -> Nat.eqb p ci = false ->
  writer (self w) = Some x -> open x -> sent x = [] ->
  reader (self w) = Some (mkReader [] false) ->
  stderr (self w) = Some (mkReader [] false) ->
  queue (self w) = [] ->
  tasks w = [RedirectStderr; ReadTask; WaitForReady] ->
  let sys' := round (answering reply) (mkSystem w [] ci sv) in
  quiet sys' [] /\ existsb is_spinning (pool sys') = false.
Proof.
  intros Hp Hci Hw Ho Hs Hr He Hq Ht sys'.
  set (r := reply []).
  set (wf := set_self w (set_reader (self w) (mkReader (dumps r ++ [10]) false))).
  set (w1 := enqueued (set_self wf (set_reader (self wf) (mkReader [] false))) r).
  assert (B : sys' = mkSystem (readied (dequeued w1 r [])) (idle_pool p) p 1).
  { unfold sys', round, adopt. cbn [sworld pool child_id served List.length skipn app].
    rewrite Ht. cbn [List.map body_of].
    unfold child_turn. cbn [sworld pool child_id served].
    rewrite Hp, Hci. unfold request_lines. rewrite Hw, Hs.
    cbn [lines_from List.length Nat.sub reactions firstn Nat.add].
    unfold answering at 1. fold r. rewrite List.app_nil_r.
    assert (F : feed_data (dumps r ++ [10]) w = wf)
      by (unfold feed_data; rewrite Hr; reflexivity).
    rewrite F. unfold background. cbn [sworld pool child_id served run_tasks].
    rewrite (step_stderr_idle wf p _ (or_introl eq_refl) Hp He).
    rewrite (step_reader_line wf p r _ (or_introl eq_refl) (reply_valid _)
               (reply_fits _) Hp eq_refl).
    fold w1.
    assert (Hq1 : queue (self w1) = [r]) by (cbn; rewrite Hq; reflexivity).
    rewrite (step_watcher_ready w1 r Hq1 (proj1 reply_ready) (proj2 reply_ready)).
    reflexivity. }
  rewrite B. split; [|reflexivity].
  exists p, x. cbn [sworld pool child_id served].
  split; [exact Hp|]. split; [exact Hw|]. split; [exact Ho|].
  split; [exact Hs|]. split; [constructor|]. split; [reflexivity|].
  split; [exact He|]. split; [reflexivity|]. split; [reflexivity|].
  split; [cbn; rewrite Ht; reflexivity|]. repeat split.
Qed.

Lemma drive_boot {B : Type} (g : unit -> coro B) (k : nat) :
  exists sys : system,
    quiet sys []
    /\ drive (answering reply) (S k) (start ;; bind ensure_ready g) boot
       = drive (answering reply) k (g tt) sys.
Proof.
  assert (E : exec (start ;; bind ensure_ready g) (sworld boot)
              = Blocked (bind ensure_ready g) started).
  { rewrite exec_bind.
    change (exec start (sworld boot)) with (Done tt started).
    cbv beta iota. rewrite exec_bind, exec_ensure_ready. reflexivity. }
  destruct (round_boot started 1 0 0 (mkWriter [] false false)
              eq_refl eq_refl eq_refl (conj eq_refl eq_refl) eq_refl eq_refl
              eq_refl eq_refl eq_refl) as [Q N].
  change (mkSystem started [] 0 0) with (with_world boot started) in Q, N.
  set (sys0 := round (answering reply) (with_world boot started)) in *.
  exists sys0. split; [exact Q|].
  rewrite (drive_round _ k _ _ boot started E N). fold sys0.
  destruct (settled_world _ _ _ _ Q) as [x [_ [_ [Hr _]]]].
  rewrite (drive_exec (answering reply) k (bind ensure_ready g) (g tt)
             sys0 (sworld sys0)).
  - destruct sys0; reflexivity.
  - intros B0 K. rewrite exec_bind, exec_ensure_ready, Hr. reflexivity.
Qed.

End Calls.


Lemma scalar_text_bool (s : str) :
  forallb (fun c => (c <? 0xD800) || ((0xDFFF <? c) && (c <? 0x110000))) s = true ->
  scalar_text s.
Proof.
  intros H. apply Forall_forall. intros c Hc.
  rewrite forallb_forall in H. specialize (H c Hc). unfold scalar.
  apply orb_true_iff in H. destruct H as [H | H].
  - apply N.ltb_lt in H. lia.
  - apply andb_true_iff in H. destruct H as [A B].
    apply N.ltb_lt in A, B. lia.
Qed.

Lemma demo_reply_responsive : responsive demo_reply.
Proof.
  split; [split; reflexivity|]. split; [|split].
  - intros [|a [|b [|c reqs]]]; cbn [demo_reply]; (split; [|vm_compute; discriminate]);
      cbn [valid_json ready_message List.map fst snd];
      (split; [repeat constructor; cbn [In]; intuition discriminate|]);
      repeat split; apply scalar_text_bool; reflexivity.
  - intros [|a [|b [|c reqs]]] H; [contradiction | reflexivity ..].
  - intros [|a [|b reqs]]; cbn [app demo_reply].
    + exists (JStr (py "connected")). split; reflexivity.
    + exists (JBool true). split; reflexivity.
    + exists (JNum 1). destruct reqs; split; reflexivity.
Qed.


(** ** The stderr sink at work, and the end of a session *)

Lemma redirect_on_line (w : world) (p : nat) (l rest : bytes) (e : bool) :
  proc (self w) = Some p ->
  stderr (self w) = Some (mkReader (l ++ 10 :: rest) e) ->
  Forall (fun c => c <> 10) l -> blen l <= limit ->
  let w1 := set_self w (set_stderr (self w) (mkReader rest e)) in
  exec (_redirect_stderr_on p) w
  = match shown l with
    | None => Failed UnicodeDecodeError w1
    | Some [] => Done Continue w1
    | Some (c :: t) => Done Continue (logged w1 ERROR (c :: t))
    end.
Proof.
  intros Hp Hr Hn Hl w1. unfold _redirect_stderr_on. rewrite exec_bind, exec_await.
  cbn [handle]. unfold on_readline. rewrite Hp, Hr, Nat.eqb_refl.
  rewrite (readline_line l rest e Hn Hl). fold w1. cbn [exec].
  unfold shown. destruct (utf8_decode (l ++ [10])) as [text|]; [|reflexivity].
  cbn [option_map]. cbv zeta. destruct (strip text) as [|c t]; [reflexivity|].
  rewrite exec_bind, exec_log. reflexivity.
Qed.

Lemma sink_takes_lines (p : nat) (ls : list bytes) : forall w : world,
  proc (self w) = Some p ->
  stderr (self w) = Some (mkReader (stream_of ls) false) ->
  Forall legible ls ->
  exists w',
    run_loop (S (List.length ls)) _redirect_stderr (_redirect_stderr_on p) w
    = LoopBlocked (_redirect_stderr_on p) w'
    /\ log w' = (if logger_disabled w then log w else log w ++ errors_of ls)
    /\ self w' = set_stderr (self w) (mkReader [] false)
    /\ logger_disabled w' = logger_disabled w
    /\ trace w' = trace w.
Proof.
  induction ls as [|l ls IH]; intros w Hp Hr HF.
  - exists w. cbn [List.length run_loop]. rewrite (redirect_on_wait w p Hp Hr).
    cbn [errors_of]. rewrite List.app_nil_r.
    split; [reflexivity|]. split; [destruct (logger_disabled w); reflexivity|].
    split; [|split; reflexivity].
    destruct w as [[pr wr rd er rdy qu] ld lg sp tk tr]. cbn in Hr. subst er.
    reflexivity.
  - inversion HF as [|? ? [Hn [Hl Hd]] HF']; subst.
    change (stream_of (l :: ls)) with ((l ++ [10]) ++ stream_of ls) in Hr.
    rewrite <- List.app_assoc in Hr. cbn [app] in Hr.
    cbn [List.length]. cbn [run_loop].
    rewrite (redirect_on_line w p l (stream_of ls) false Hp Hr Hn Hl).
    cbn [errors_of].
    destruct (shown l) as [[|c t]|]; [ | | contradiction ].
    + set (w2 := set_self w _).
      destruct (IH w2) as [w' [E [L [S [D T]]]]];
        [exact Hp | reflexivity | exact HF' |].
      exists w'. split.
      { destruct (List.length ls); cbn [run_loop] in *;
          rewrite (exec_redirect_stderr w2 p Hp); exact E. }
      rewrite L, S, D, T. repeat split.
    + set (w2 := logged _ ERROR _).
      assert (S2 : self w2 = set_stderr (self w) (mkReader (stream_of ls) false))
        by (unfold w2; rewrite logged_self; reflexivity).
      assert (Hp2 : proc (self w2) = Some p) by (rewrite S2; exact Hp).
      destruct (IH w2) as [w' [E [L [S [D T]]]]];
        [exact Hp2 | rewrite S2; reflexivity | exact HF' |].
      exists w'. split.
      { destruct (List.length ls); cbn [run_loop] in *;
          rewrite (exec_redirect_stderr w2 p Hp2); exact E. }
      rewrite L, S, D, T, S2. unfold w2, logged, set_self.
      cbn. destruct (logger_disabled w); cbn; rewrite <- ?List.app_assoc; repeat split.
Qed.

(** X13: the stderr sink on lines that are valid UTF-8 and not longer
    than the limit.  It takes them from the stream one by one; a line that
    is not blank is logged once, at level [ERROR], with the white space
    around it stripped; a blank line is skipped.  All of them are lost
    while the logger is disabled, as it is during the status call of
    [ensure_connected].  The sink then waits for the next line; the queue,
    the event and the pipes are untouched. *)
Theorem stderr_lines_are_logged
  (p : nat) (ls : list bytes) (w : world) (cur : coro ctl) :
  cur = _redirect_stderr \/ cur = _redirect_stderr_on p ->
  proc (self w) = Some p ->
  stderr (self w) = Some (mkReader (stream_of ls) false) ->
  Forall legible ls ->
  exists w',
    run_loop (S (List.length ls)) _redirect_stderr cur w
    = LoopBlocked (_redirect_stderr_on p) w'
    /\ log w' = (if logger_disabled w then log w else log w ++ errors_of ls)
    /\ stderr (self w') = Some (mkReader [] false)
    /\ queue (self w') = queue (self w)
    /\ ready (self w') = ready (self w)
    /\ trace w' = trace w.
Proof.
  intros Hc Hp Hr HF.
  destruct (sink_takes_lines p ls w Hp Hr HF) as [w' [E [L [S [_ T]]]]].
  exists w'. rewrite S. split; [|repeat split; assumption].
  destruct Hc as [-> | ->]; [|exact E].
  cbn [run_loop] in *. rewrite (exec_redirect_stderr w p Hp). exact E.
Qed.

Lemma complaints_legible : Forall legible complaints.
Proof.
  repeat constructor; try (intro; discriminate); vm_compute; discriminate.
Qed.

Lemma stderr_lines_are_logged_witness :
  exists w',
    run_loop 4 _redirect_stderr _redirect_stderr complaining
    = LoopBlocked (_redirect_stderr_on 1) w'
    /\ log w'
       = (if logger_disabled complaining then log complaining
          else log complaining ++ errors_of complaints).
Proof.
  destruct (stderr_lines_are_logged 1 complaints complaining _redirect_stderr
              (or_introl eq_refl) eq_refl eq_refl complaints_legible)
    as [w' [E [L _]]].
  exists w'. exact (conj E L).
Defined.

Lemma stop_sends (w : world) (x : StreamWriter) :
  ready (self w) = true -> writer (self w) = Some x -> open x ->
  queue (self w) = [] ->
  exists w' : world,
    exec stop w
    = Blocked (_get_result ;;
               await WriterWriteEof ;; await WriterClose ;; await EventClear)
              (requested w' x (command "disconnect"))
    /\ self w' = self w /\ tasks w' = tasks w.
Proof.
  intros Hr Hw Ho Hq. eexists. split.
  - unfold stop. rewrite exec_bind, exec_log, exec_bind.
    rewrite (disconnect_sends _ x); try rewrite logged_self; try assumption.
    reflexivity.
  - rewrite !logged_self, !tasks_logged. split; reflexivity.
Qed.

Section Stopping.

Variable reply : list bytes -> json.
Hypothesis reply_valid : forall reqs, valid_json (reply reqs).
Hypothesis reply_fits : forall reqs, blen (dumps (reply reqs)) <= limit.
Hypothesis reply_ok : forall reqs, reqs <> [] -> has_error (reply reqs) = false.

Lemma drive_stop {B : Type} (b : B) (sys : system) (reqs : list bytes) (k : nat) :
  quiet sys reqs ->
  exists (sys' : system) (p : nat),
    drive (answering reply) (S k) (stop ;; Ret b) sys = Finished b sys'
    /\ request_lines (sworld sys') = reqs ++ [dumps (command "disconnect")]
    /\ writer (self (sworld sys'))
       = Some (mkWriter (stream_of (reqs ++ [dumps (command "disconnect")]))
                        true true)
    /\ ready (self (sworld sys')) = false
    /\ queue (self (sworld sys')) = []
    /\ proc (self (sworld sys')) = Some p
    /\ pool sys' = idle_pool p.
Proof.
  intros Q. destruct (settled_world _ _ _ _ Q) as [x [Hw [Ho [Hr [Hq _]]]]].
  destruct (stop_sends _ x Hr Hw Ho Hq) as [w0 [E [S0 T0]]].
  set (K := _get_result ;; _) in E.
  assert (E1 : exec (stop ;; Ret b) (sworld sys)
               = Blocked (K ;; Ret b) (requested w0 x (command "disconnect")))
    by (rewrite exec_bind, E; reflexivity).
  pose proof (settled_requested sys reqs _ w0 x (command "disconnect") Q S0 T0 Hw) as H1.
  destruct (drive_answer reply reply_valid reply_fits _ _ sys reqs _ _ k E1 H1)
    as [sys1 [S1 [D1 _]]].
  rewrite D1.
  destruct S1 as [p [x1 [Hp [Hw1 [Ho1 [Hs1 [Hn1 [Hrd [He [Hy [Hq1 [Ht [Hpool [Hc Hv]]]]]]]]]]]]]].
  pose proof (reply_ok (reqs ++ [dumps (command "disconnect")]) (not_nil_app _ _)) as Hok.
  set (r := reply (reqs ++ [dumps (command "disconnect")])) in *.
  assert (E2 : exec (K ;; Ret b) (sworld sys1)
               = Done b (stopped (sworld sys1) r [] x1)).
  { unfold K. rewrite !exec_bind, (get_result_classified _ r [] Hq1), Hok.
    rewrite (exec_stop_tail _ x1) by exact Hw1.
    unfold stopped, dequeued, record, set_self, set_queue. cbn.
    rewrite <- List.app_assoc. reflexivity. }
  exists (with_world sys1 (stopped (sworld sys1) r [] x1)), p.
  split; [destruct k; cbn [drive]; rewrite E2; reflexivity|].
  unfold with_world, stopped. cbn [sworld pool self writer ready queue proc].
  split.
  { unfold request_lines. cbn [self writer sent]. rewrite Hs1.
    apply lines_of_stream. exact Hn1. }
  split; [rewrite Hs1; reflexivity|].
  split; [reflexivity|]. split; [reflexivity|]. split; [exact Hp | exact Hpool].
Qed.

End Stopping.


